(** * BB84 key distribution notebook (2.1_BB84_Protocol.ipynb)

    A shallow embedding of the notebook's code cells, run top to bottom, and
    of the part of the Cirq simulator they call.  The first cell sets
    [num_bits = 10]; here [num_bits] is a parameter of the run.

    - Python values: bits are integers ([Z]), bases are the strings 'X' and
      'Z', the two gate tables are dictionaries ([gmap]), lists are indexed
      with [!!]; a failing subscript raises, so every cell lives in an error
      monad [Py].
    - Randomness: [random.choices] and the simulator's sampler read
      process-global generators that the notebook never seeds.  Both are
      explicit here: an [Entropy] holds the stream of 53-bit words behind
      Python's [random()] and the one behind NumPy's [random_sample()].
    - Cirq: [cirq.I], [cirq.X] and [cirq.H] act on one qubit each, so the
      state of the register stays a product of one-qubit states.  A qubit is
      kept as an exact amplitude pair over a power of sqrt 2 (no floating
      point); a measurement samples its qubits one by one, each from its own
      Born distribution and with a draw of its own, by inverting the
      cumulative sums the way [numpy.random.choice] does. *)

From Stdlib Require Import QArith Lqa.
From stdpp Require Import base list sorting gmap strings.

Local Open Scope Z_scope.

(** ** Python exceptions and the error monad *)

Inductive exn : Type :=
  | KeyError      (* dict subscript with a missing key *)
  | IndexError    (* list subscript out of range *)
  | ValueError.   (* raised by Cirq and NumPy on bad arguments *)

Definition Py (A : Type) : Type := exn + A.

Definition ret {A} (a : A) : Py A := inr a.
Definition raise {A} (e : exn) : Py A := inl e.

Definition bind {A B} (m : Py A) (k : A → Py B) : Py B :=
  match m with
  | inl e => inl e
  | inr a => k a
  end.

Notation "x <- m ;; k" := (bind m (λ x, k))
  (at level 100, m at next level, right associativity, only parsing).

(** [l[i]] for a non-negative index. *)
Definition index {A} (l : list A) (i : nat) : Py A :=
  match l !! i with
  | Some a => ret a
  | None => raise IndexError
  end.

(** [d[k]] on a dictionary. *)
Definition getitem `{Countable K} {V} (d : gmap K V) (k : K) : Py V :=
  match d !! k with
  | Some v => ret v
  | None => raise KeyError
  end.

(** [for bit in l: s = body(bit, s)] *)
Fixpoint for_each {S} (l : list nat) (body : nat → S → Py S) (s : S) : Py S :=
  match l with
  | [] => ret s
  | bit :: l' => s' <- body bit s ;; for_each l' body s'
  end.

(** [range(n)]; empty when [n <= 0]. *)
Definition range (n : Z) : list nat := seq 0 (Z.to_nat n).

(** ** Cirq: gates, operations, circuits *)

Inductive Gate : Type := cirq_I | cirq_X | cirq_H.

(** A named qubit [q<i>] is identified with its number [i]. *)
Abbreviation Qubit := nat (only parsing).

Inductive Operation : Type :=
  | GateOp (g : Gate) (q : Qubit)                 (* gate(qubit) *)
  | MeasureOp (qs : list Qubit) (key : string).   (* cirq.measure(qs, key=key) *)

(** A circuit is kept as its operations in the order they were appended.
    Cirq packs them into moments, which keeps the order of the operations
    on each qubit; nothing here depends on more. *)
Abbreviation Circuit := (list Operation).

(** [cirq.NamedQubit.range(n, prefix='q')] *)
Definition NamedQubit_range (n : Z) : list Qubit := range n.

(** [cirq.measure(qubits, key=key)]: the measurement gate refuses an empty
    set of qubits. *)
Definition cirq_measure (qs : list Qubit) (key : string) : Py Operation :=
  match qs with
  | [] => raise ValueError
  | _ => ret (MeasureOp qs key)
  end.

(** ** Step 0: the set up *)

Definition encode_gates : gmap Z Gate := <[0 := cirq_I]> (<[1 := cirq_X]> ∅).

Definition basis_gates : gmap string Gate :=
  <["Z"%string := cirq_I]> (<["X"%string := cirq_H]> ∅).

(** ** Random sources *)

(** Both generators hand out doubles [w / 2^53] with [0 <= w < 2^53]. *)
Definition word53 (w : Z) : Z := w mod 2 ^ 53.

Definition unit_float (w : Z) : Q := word53 w # 2 ^ 53.

(** [floor(random() * n)] for the word [w] behind [random()].  The product
    is taken exactly; for the two-element populations used below the
    floating-point product by 2.0 is exact as well. *)
Definition scaled_floor (w : Z) (n : nat) : nat :=
  Z.to_nat (word53 w * Z.of_nat n / 2 ^ 53).

(** [random.choices(population, k=k)], reading the stream [rnd] from
    position [pos] on: one [random()] per element. *)
Fixpoint choices_from {A} (population : list A) (k : nat)
    (rnd : nat → Z) (pos : nat) : Py (list A) :=
  match k with
  | O => ret []
  | S k' =>
      x <- index population (scaled_floor (rnd pos) (length population)) ;;
      xs <- choices_from population k' rnd (S pos) ;;
      ret (x :: xs)
  end.

Definition choices {A} (population : list A) (k : Z)
    (rnd : nat → Z) (pos : nat) : Py (list A * nat) :=
  xs <- choices_from population (Z.to_nat k) rnd pos ;;
  ret (xs, (pos + Z.to_nat k)%nat).

(** ** The simulator *)

(** The one-qubit state [(amp0 |0> + amp1 |1>) / sqrt 2 ^ halves]. *)
Record Amp : Type := mkAmp { amp0 : Z; amp1 : Z; halves : nat }.

Definition ket0 : Amp := mkAmp 1 0 0.

(** The unitaries of the three gates: identity, bit flip, Hadamard. *)
Definition apply_gate (g : Gate) (a : Amp) : Amp :=
  match g with
  | cirq_I => a
  | cirq_X => mkAmp (amp1 a) (amp0 a) (halves a)
  | cirq_H => mkAmp (amp0 a + amp1 a) (amp0 a - amp1 a) (S (halves a))
  end.

Fixpoint pow2 (k : nat) : positive :=
  match k with
  | O => 1%positive
  | S k' => ((pow2 k')~0)%positive
  end.

(** Born rule: the probabilities of reading 0 and of reading 1. *)
Definition born (a : Amp) : Q * Q :=
  (amp0 a * amp0 a # pow2 (halves a), amp1 a * amp1 a # pow2 (halves a)).

(** A distribution as [numpy.random.choice] takes it: the values in their
    order, each with its probability. *)
Abbreviation dist := (list (Z * Q)).

(** The distribution of the reading of one qubit: [P(0)], then [P(1)]. *)
Definition qubit_dist (a : Amp) : dist := [(0, (born a).1); (1, (born a).2)].

Definition total (d : dist) : Q := foldr (λ op s, (op.2 + s)%Q) 0%Q d.

(** The probability [d] gives to the value [b]. *)
Definition prob (d : dist) (b : Z) : Q :=
  total (filter (λ op : Z * Q, op.1 = b) d).

(** The probability that position [i] of a record reads [b], when the
    positions are drawn one by one from the distributions [ds]. *)
Definition marginal (ds : list dist) (i : nat) (b : Z) : Q :=
  match ds !! i with
  | Some d => prob d b
  | None => 0%Q
  end.

(** [cdf = cumsum(p); cdf.searchsorted(u, side='right')]: the first entry
    whose cumulative sum exceeds [u]. *)
Fixpoint inverse_cdf (d : dist) (acc : Q) (u : Q) : option Z :=
  match d with
  | [] => None
  | op :: d' =>
      if Qlt_le_dec u (acc + op.2) then Some op.1
      else inverse_cdf d' (acc + op.2)%Q u
  end.

(** [prng.choice(len(p), p=p)] for the uniform draw [u]: NumPy rejects
    probabilities that do not sum to 1.  With total mass 1 and [u < 1] the
    search always lands on an entry ([np_choice_ok] below). *)
Definition np_choice (d : dist) (u : Q) : Py Z :=
  if Qeq_bool (total d) 1 then
    match inverse_cdf d 0 u with
    | Some b => ret b
    | None => raise IndexError
    end
  else raise ValueError.

(** One entry of [results.measurements], for the single repetition that
    [sim.run] performs by default; [m_probs] lists, qubit by qubit, the
    distribution each bit of the record was drawn from. *)
Record Measurement : Type :=
  mkMeasurement { m_key : string; m_probs : list dist; m_bits : list Z }.

Definition State : Type := Qubit → Amp.

Definition init_state : State := λ _, ket0.

Definition update (st : State) (q : Qubit) (a : Amp) : State :=
  λ q', if decide (q' = q) then a else st q'.

Definition basis_ket (b : Z) : Amp := if decide (b = 0) then mkAmp 1 0 0 else mkAmp 0 1 0.

(** After a measurement each measured qubit is left in the state read. *)
Fixpoint collapse (st : State) (qs : list Qubit) (bits : list Z) : State :=
  match qs, bits with
  | q :: qs', b :: bits' => collapse (update st q (basis_ket b)) qs' bits'
  | _, _ => st
  end.

(** Sampling the qubits of a measurement.  The gates used act on one qubit
    each, so the simulator keeps every qubit as a state of its own and
    samples it on its own: one [prng.choice(2, p=probs)], that is one
    [random_sample()], for each qubit.  The simulator goes through the
    register in the order of the qubits, which is the order the notebook's
    only measurement lists them in. *)
Fixpoint sample_qubits (st : State) (qs : list Qubit) (rnd : nat → Z) (pos : nat)
    : Py (list (dist * Z)) :=
  match qs with
  | [] => ret []
  | q :: qs' =>
      let probs := qubit_dist (st q) in
      bit <- np_choice probs (unit_float (rnd pos)) ;;
      rest <- sample_qubits st qs' rnd (S pos) ;;
      ret ((probs, bit) :: rest)
  end.

Fixpoint simulate (c : Circuit) (st : State) (rnd : nat → Z) (pos : nat)
    : Py (list Measurement) :=
  match c with
  | [] => ret []
  | GateOp g q :: c' => simulate c' (update st q (apply_gate g (st q))) rnd pos
  | MeasureOp qs key :: c' =>
      sampled <- sample_qubits st qs rnd pos ;;
      rest <- simulate c' (collapse st qs sampled.*2) rnd (pos + length qs) ;;
      ret (mkMeasurement key sampled.*1 sampled.*2 :: rest)
  end.

(** [cirq.Simulator().run(circuit)] *)
Definition sim_run (c : Circuit) (rnd : nat → Z) : Py (list Measurement) :=
  simulate c init_state rnd 0.

(** [results.measurements[key]] *)
Fixpoint measurements (results : list Measurement) (key : string) : Py Measurement :=
  match results with
  | [] => raise KeyError
  | m :: results' =>
      if decide (m_key m = key) then ret m else measurements results' key
  end.

(** ** Standard output and the cells' monad *)

Inductive printed : Type :=
  | PrintList (label : string) (v : list Z)         (* print(label, list of ints) *)
  | PrintStrs (label : string) (v : list string)    (* print(label, list of strs) *)
  | PrintCircuit (label : string) (c : Circuit)     (* print(label, circuit) *)
  | PrintArray (label : string) (v : list Z)        (* print(label, numpy array) *)
  | PrintText (s : string).                         (* print(s) *)

(** What a run has printed so far, and how it went on. *)
Definition Cell (A : Type) : Type := list printed * Py A.

Definition lift {A} (m : Py A) : Cell A := ([], m).
Definition print (p : printed) : Cell unit := ([p], ret ()).

Definition bind_cell {A B} (m : Cell A) (k : A → Cell B) : Cell B :=
  match m.2 with
  | inl e => (m.1, inl e)
  | inr a => let r := k a in (m.1 ++ r.1, r.2)
  end.

Notation "x <~ m ;; k" := (bind_cell m (λ x, k))
  (at level 100, m at next level, right associativity, only parsing).

(** The newline character of the Python string literals. *)
Definition nl : string := String (Ascii.ascii_of_nat 10) EmptyString.

(** ** The code cells *)

(** Step 1: [alice_key = choices([0, 1], k=num_bits)] *)
Definition step1 (num_bits : Z) (rnd : nat → Z) (pos : nat) : Py (list Z * nat) :=
  choices [0; 1] num_bits rnd pos.

(** Step 2: [alice_bases = choices(['X', 'Z'], k=num_bits)] *)
Definition step2 (num_bits : Z) (rnd : nat → Z) (pos : nat) : Py (list string * nat) :=
  choices ["X"; "Z"]%string num_bits rnd pos.

(** Step 3: Alice encodes the qubits. *)
Definition step3 (num_bits : Z) (qubits : list Qubit)
    (alice_key : list Z) (alice_bases : list string) : Py Circuit :=
  for_each (range num_bits) (λ bit alice_cirquit,
    encode_value <- index alice_key bit ;;
    encode_gate <- getitem encode_gates encode_value ;;
    basis_value <- index alice_bases bit ;;
    basis_gate <- getitem basis_gates basis_value ;;
    qubit <- index qubits bit ;;
    ret (alice_cirquit ++ [GateOp encode_gate qubit] ++ [GateOp basis_gate qubit]))
  [].

(** Step 4: [bob_bases = choices(['X', 'Z'], k=num_bits)] *)
Definition step4 (num_bits : Z) (rnd : nat → Z) (pos : nat) : Py (list string * nat) :=
  choices ["X"; "Z"]%string num_bits rnd pos.

(** Step 5: Bob applies his bases. *)
Definition step5 (num_bits : Z) (qubits : list Qubit) (bob_bases : list string)
    : Py Circuit :=
  for_each (range num_bits) (λ bit bob_circuit,
    basis_value <- index bob_bases bit ;;
    basis_gate <- getitem basis_gates basis_value ;;
    qubit <- index qubits bit ;;
    ret (bob_circuit ++ [GateOp basis_gate qubit]))
  [].

(** Step 6: [bob_circuit.append(cirq.measure(qubits, key='bob_key'))] *)
Definition step6 (qubits : list Qubit) (bob_circuit : Circuit) : Py Circuit :=
  m <- cirq_measure qubits "bob_key" ;;
  ret (bob_circuit ++ [m]).

(** Step 7: combine the circuits, simulate, read Bob's record. *)
Definition step7 (alice_cirquit bob_circuit : Circuit) (rnd : nat → Z)
    : Py (Circuit * list Measurement * list Z) :=
  let bb84_circuit := alice_cirquit ++ bob_circuit in
  results <- sim_run bb84_circuit rnd ;;
  m <- measurements results "bob_key" ;;
  ret (bb84_circuit, results, m_bits m).

(** The two key variables of Phase 3. *)
Record Keys : Type := mkKeys { final_alice_key : list Z; final_bob_key : list Z }.

(** Step 8: key reconciliation. *)
Definition step8 (num_bits : Z) (alice_key : list Z) (alice_bases bob_bases : list string)
    (bob_key : list Z) : Py Keys :=
  for_each (range num_bits) (λ bit keys,
    a <- index alice_bases bit ;;
    b <- index bob_bases bit ;;
    if decide (a = b) then
      x <- index alice_key bit ;;
      y <- index bob_key bit ;;
      ret (mkKeys (final_alice_key keys ++ [x]) (final_bob_key keys ++ [y]))
    else ret keys)
  (mkKeys [] []).

(** The branch Step 9 ends in: "We can use our keys!" or "Eve was
    lisening. We need to use a different channel!". *)
Inductive Verdict : Type := Secure | Compromised.

(** Step 9: the check on the first bit. *)
Definition step9 (keys : Keys) : Cell (Verdict * Keys) :=
  a <~ lift (index (final_alice_key keys) 0) ;;
  b <~ lift (index (final_bob_key keys) 0) ;;
  if decide (a = b) then
    let keys' := mkKeys (drop 1 (final_alice_key keys)) (drop 1 (final_bob_key keys)) in
    _ <~ print (PrintText (nl +:+ nl +:+ " We can use our keys!" +:+ nl)) ;;
    _ <~ print (PrintList "Alice's Key: " (final_alice_key keys')) ;;
    _ <~ print (PrintList "Bob's Key: " (final_bob_key keys')) ;;
    lift (ret (Secure, keys'))
  else
    _ <~ print (PrintText
           (nl +:+ nl +:+ "Eve was lisening. We need to use a different channel!")) ;;
    lift (ret (Compromised, keys)).

(** ** The notebook, run top to bottom *)

Record Entropy : Type := mkEntropy {
  py_random : nat → Z;    (* words behind Python's random() *)
  np_random : nat → Z     (* words behind NumPy's random_sample() *)
}.

(** The variables after Step 7. *)
Record Transmission : Type := mkTransmission {
  alice_key : list Z;
  alice_bases : list string;
  alice_cirquit : Circuit;
  bob_bases : list string;
  bob_circuit : Circuit;
  bb84_circuit : Circuit;
  results : list Measurement;
  bob_key : list Z
}.

Definition phases_1_2 (num_bits : Z) (e : Entropy) : Cell Transmission :=
  let qubits := NamedQubit_range num_bits in
  s1 <~ lift (step1 num_bits (py_random e) 0) ;;
  let '(alice_key, pos) := s1 in
  _ <~ print (PrintList "Alice's Initial Key: " alice_key) ;;
  s2 <~ lift (step2 num_bits (py_random e) pos) ;;
  let '(alice_bases, pos) := s2 in
  _ <~ print (PrintStrs "Alice's randomly choosen bases: " alice_bases) ;;
  alice_cirquit <~ lift (step3 num_bits qubits alice_key alice_bases) ;;
  _ <~ print (PrintCircuit ("Alice's Phase 1 Circuit: " +:+ nl +:+ nl) alice_cirquit) ;;
  s4 <~ lift (step4 num_bits (py_random e) pos) ;;
  let '(bob_bases, pos) := s4 in
  _ <~ print (PrintStrs "Bob's randomly choosen bases: " bob_bases) ;;
  bob_circuit <~ lift (step5 num_bits qubits bob_bases) ;;
  bob_circuit <~ lift (step6 qubits bob_circuit) ;;
  _ <~ print (PrintText ("Bob's Phase 2 Circuit: " +:+ nl +:+ nl)) ;;
  s7 <~ lift (step7 alice_cirquit bob_circuit (np_random e)) ;;
  let '(bb84_circuit, results, bob_key) := s7 in
  _ <~ print (PrintArray "Bob's inital key: " bob_key) ;;
  lift (ret (mkTransmission alice_key alice_bases alice_cirquit bob_bases
               bob_circuit bb84_circuit results bob_key)).

(** Steps 0 to 8: [sifted] holds the key variables as Step 8 leaves them. *)
Record Sifting : Type := mkSifting { sent : Transmission; sifted : Keys }.

Definition phase_3_step8 (num_bits : Z) (e : Entropy) : Cell Sifting :=
  t <~ phases_1_2 num_bits e ;;
  keys <~ lift (step8 num_bits (alice_key t) (alice_bases t) (bob_bases t) (bob_key t)) ;;
  _ <~ print (PrintList "Final Alice's Key : " (final_alice_key keys)) ;;
  _ <~ print (PrintList (nl +:+ "Final Bob's Key : ") (final_bob_key keys)) ;;
  lift (ret (mkSifting t keys)).

(** The whole notebook: [final] holds the key variables after Step 9. *)
Record Run : Type := mkRun { before : Sifting; verdict : Verdict; final : Keys }.

Definition run (num_bits : Z) (e : Entropy) : Cell Run :=
  s <~ phase_3_step8 num_bits e ;;
  r <~ step9 (sifted s) ;;
  lift (ret (mkRun s r.1 r.2)).

(** Words for [random()] with the given leading bits. *)
Definition draws_of (bits : list Z) : nat → Z := λ i, nth i bits 0 * 2 ^ 52.

(** The entropy whose [random()] words have the given leading bits and
    whose [random_sample()] words all are [w]. *)
Definition entropy_of (bits : list Z) (w : Z) : Entropy :=
  mkEntropy (draws_of bits) (λ _, w).

(** The draws of the notebook's recorded execution: the leading bits of
    the thirty [random()] words behind the lists printed by Steps 1, 2 and
    4, and simulator draws of 7/8, which give the record Step 7 printed. *)
Definition recorded_draws : list Z :=
  [0;0;0;1;0;0;0;1;0;1] ++ [0;1;0;1;1;1;0;1;0;1] ++ [0;1;0;0;1;0;0;1;1;1].

Definition notebook_entropy : Entropy := entropy_of recorded_draws (7 * 2 ^ 50).

(** ** Notions used in the statements and proofs *)

Definition normalized (p : Q * Q) : Prop :=
  (0 <= p.1)%Q ∧ (0 <= p.2)%Q ∧ (p.1 + p.2 == 1)%Q.

Definition is_gate (op : Operation) : Prop :=
  match op with GateOp _ _ => True | MeasureOp _ _ => False end.

(** The state a circuit's gates lead to. *)
Fixpoint evolve (c : Circuit) (st : State) : State :=
  match c with
  | [] => st
  | GateOp g q :: c' => evolve c' (update st q (apply_gate g (st q)))
  | MeasureOp _ _ :: c' => evolve c' st
  end.

Definition apply_gates (gs : list Gate) (a : Amp) : Amp :=
  foldl (λ a g, apply_gate g a) a gs.

(** The gates [gs], in this order, on the qubit [q]. *)
Definition qubit_ops (gs : list Gate) (q : Qubit) : Circuit := (λ g, GateOp g q) <$> gs.

Definition encode_gate_of (b : Z) : Gate := default cirq_I (encode_gates !! b).
Definition basis_gate_of (s : string) : Gate := default cirq_I (basis_gates !! s).

(** The gates Alice and Bob put on qubit [i]. *)
Definition alice_ops (key : list Z) (bases : list string) (i : nat) : list Gate :=
  [encode_gate_of (nth i key 0); basis_gate_of (nth i bases ""%string)].

Definition bob_ops (bases : list string) (i : nat) : list Gate :=
  [basis_gate_of (nth i bases ""%string)].

(** The state of qubit [i] when Bob measures it. *)
Definition photon (key : list Z) (abases bbases : list string) (i : nat) : Amp :=
  apply_gates (bob_ops bbases i) (apply_gates (alice_ops key abases i) ket0).

(** The choice [random.choices] makes between two elements for the word
    [w]: the first one when [random()] is below one half. *)
Definition coin {A} (x0 x1 : A) (w : Z) : A :=
  if decide (word53 w < 2 ^ 52) then x0 else x1.

(** The bit [prng.choice(2, p=[p.1, p.2])] returns for the word [w]. *)
Definition bit_read (p : Q * Q) (w : Z) : Z :=
  if Qlt_le_dec (unit_float w) p.1 then 0 else 1.

(** The distributions Bob's [n] bits are drawn from, and the bits the
    draws [rnd] give: draw [i] decides bit [i]. *)
Definition bob_dists (key : list Z) (abases bbases : list string) (n : nat)
    : list dist :=
  (λ i, qubit_dist (photon key abases bbases i)) <$> seq 0 n.

Definition bob_reads (key : list Z) (abases bbases : list string)
    (rnd : nat → Z) (n : nat) : list Z :=
  (λ i, bit_read (born (photon key abases bbases i)) (rnd i)) <$> seq 0 n.

Definition bits_ok (l : list Z) : Prop := Forall (λ x, x ∈ [0; 1]) l.
Definition bases_ok (l : list string) : Prop := Forall (λ s, s ∈ ["X"; "Z"]%string) l.

(** Well-formed choices for [n] qubits. *)
Definition prepared (n : nat) (key : list Z) (abases bbases : list string) : Prop :=
  length key = n ∧ length abases = n ∧ length bbases = n ∧
  bits_ok key ∧ bases_ok abases ∧ bases_ok bbases.

(** The indices below [n] at which the two basis lists agree, in
    increasing order. *)
Definition matching (abases bbases : list string) (n : nat) : list nat :=
  filter (λ i, abases !! i = bbases !! i) (seq 0 n).

(** [xs] lists the elements of [l] at the indices [idxs], in that order. *)
Definition picks {A} (l : list A) (idxs : list nat) (xs : list A) : Prop :=
  Forall2 (λ i x, l !! i = Some x) idxs xs.

(** What holds of the variables once Step 7 has completed. *)
Definition transmitted (num_bits : Z) (e : Entropy) (t : Transmission) : Prop :=
  let n := Z.to_nat num_bits in
  0 < num_bits ∧
  step1 num_bits (py_random e) 0 = inr (alice_key t, n) ∧
  step2 num_bits (py_random e) n = inr (alice_bases t, (n + n)%nat) ∧
  step4 num_bits (py_random e) (n + n) = inr (bob_bases t, (n + n + n)%nat) ∧
  prepared n (alice_key t) (alice_bases t) (bob_bases t) ∧
  bob_key t = bob_reads (alice_key t) (alice_bases t) (bob_bases t) (np_random e) n ∧
  results t =
    [mkMeasurement "bob_key" (bob_dists (alice_key t) (alice_bases t) (bob_bases t) n)
       (bob_key t)] ∧
  alice_cirquit t =
    concat ((λ i, qubit_ops (alice_ops (alice_key t) (alice_bases t) i) i) <$> range num_bits) ∧
  bob_circuit t =
    concat ((λ i, qubit_ops (bob_ops (bob_bases t) i) i) <$> range num_bits) ++
    [MeasureOp (range num_bits) "bob_key"] ∧
  bb84_circuit t = alice_cirquit t ++ bob_circuit t.

(** Three qubits: Alice draws the bits 1, 0, 1 and the bases X, Z, Z; Bob
    draws the bases X, X, Z; every draw of the simulator is one half. *)
Definition demo_entropy : Entropy :=
  entropy_of ([1; 0; 1] ++ [0; 1; 1] ++ [0; 0; 1]) (2 ^ 52).

Definition demo_sent : Transmission :=
  Eval vm_compute in
    match (phases_1_2 3 demo_entropy).2 with
    | inr t => t
    | inl _ => mkTransmission [] [] [] [] [] [] [] []
    end.

Definition demo_run : Run :=
  Eval vm_compute in
    match (run 3 demo_entropy).2 with
    | inr r => r
    | inl _ => mkRun (mkSifting demo_sent (mkKeys [] [])) Compromised (mkKeys [] [])
    end.

(** The value a computation returns, if it returns. *)
Definition value {A} (m : Py A) : option A :=
  match m with
  | inr a => Some a
  | inl _ => None
  end.

(** Alice's bits, Alice's bases and Bob's bases as Steps 1, 2 and 4 of the
    recorded execution printed them. *)
Definition recorded_key : list Z := [0; 0; 0; 1; 0; 0; 0; 1; 0; 1].
Definition recorded_alice_bases : list string :=
  ["X"; "Z"; "X"; "Z"; "Z"; "Z"; "X"; "Z"; "X"; "Z"]%string.
Definition recorded_bob_bases : list string :=
  ["X"; "Z"; "X"; "X"; "Z"; "X"; "X"; "Z"; "Z"; "Z"]%string.

(** One qubit: Alice draws the bit 0 and the basis X, Bob draws the basis Z. *)
Definition no_match_entropy : Entropy := entropy_of [0; 0; 1] 0.

(** The draws of [demo_entropy] with other high bits, and other values
    after the ones a three-qubit run consumes. *)
Definition demo_entropy' : Entropy :=
  mkEntropy (λ i, if decide (i < 9)%nat then py_random demo_entropy i + 2 ^ 53 else 1)
            (λ i, if decide (i < 3)%nat then 2 ^ 52 + 2 ^ 60 else 7).

(** * Properties *)

(** ** The model on small inputs *)

Example choices_example :
  choices ["X"; "Z"]%string 3 (λ i, Z.of_nat i * 2 ^ 52) 0
  = inr (["X"; "Z"; "X"]%string, 3%nat).
Proof. reflexivity. Qed.

Example choices_negative : choices [0; 1] (-2) (λ _, 0) 5 = inr ([], 5%nat).
Proof. reflexivity. Qed.

Example hadamard_twice :
  born (apply_gate cirq_H (apply_gate cirq_H ket0)) = (4 # 4, 0 # 4)%Q.
Proof. reflexivity. Qed.

Example minus_state :
  apply_gate cirq_H (apply_gate cirq_X ket0) = mkAmp 1 (-1) 1.
Proof. reflexivity. Qed.

Example qubit_dist_plus :
  qubit_dist (apply_gate cirq_H ket0) = [(0, (1 # 2)%Q); (1, (1 # 2)%Q)].
Proof. reflexivity. Qed.

Example np_choice_example :
  np_choice [(0, (1 # 2)%Q); (1, (1 # 2)%Q)] (1 # 4) = inr 0 ∧
  np_choice [(0, (1 # 2)%Q); (1, (1 # 2)%Q)] (1 # 2) = inr 1 ∧
  np_choice [(0, (1 # 2)%Q); (1, (1 # 4)%Q)] (1 # 4) = inl ValueError.
Proof. repeat split. Qed.

(** Two qubits, the second one in the state |+>: two draws, one each. *)
Example sample_two_qubits :
  sample_qubits (update init_state 1%nat (apply_gate cirq_H ket0)) [0; 1]%nat
    (λ i, Z.of_nat i * 2 ^ 52) 0
  = inr [([(0, 1%Q); (1, 0%Q)], 0); ([(0, (1 # 2)%Q); (1, (1 # 2)%Q)], 1)].
Proof. reflexivity. Qed.

Example measure_nothing : cirq_measure [] "bob_key" = inl ValueError.
Proof. reflexivity. Qed.

Example step8_example :
  step8 3 [1; 0; 1] ["X"; "Z"; "Z"]%string ["X"; "X"; "Z"]%string [1; 1; 1]
  = inr (mkKeys [1; 1] [1; 1]).
Proof. reflexivity. Qed.

Example step8_short_list :
  step8 2 [1] ["X"; "Z"]%string ["X"; "Z"]%string [1; 0] = inl IndexError.
Proof. reflexivity. Qed.

(** ** The monads *)

Lemma bind_inr {A B} (m : Py A) (k : A → Py B) b :
  bind m k = inr b ↔ ∃ a, m = inr a ∧ k a = inr b.
Proof.
  destruct m as [e|a]; simpl; split.
  - discriminate.
  - intros (a & Ha & _). discriminate.
  - eauto.
  - intros (a' & [= <-] & Hk). exact Hk.
Qed.

Lemma bind_cell_snd {A B} (m : Cell A) (k : A → Cell B) :
  (bind_cell m k).2 = bind m.2 (λ a, (k a).2).
Proof. unfold bind_cell. destruct m as [l [e|a]]; reflexivity. Qed.

Lemma index_inr {A} (l : list A) i a : index l i = inr a ↔ l !! i = Some a.
Proof.
  unfold index. destruct (l !! i); simpl; split; intros H; try discriminate.
  - injection H as ->. reflexivity.
  - injection H as ->. reflexivity.
Qed.

(** A loop whose body only ever appends [f bit] to a list. *)
Lemma for_each_appends {A} (f : nat → list A) (body : nat → list A → Py (list A)) l :
  (∀ i acc, i ∈ l → body i acc = inr (acc ++ f i)) →
  ∀ acc, for_each l body acc = inr (acc ++ concat (f <$> l)).
Proof.
  induction l as [|i l IH]; intros Hbody acc; simpl.
  - by rewrite app_nil_r.
  - rewrite Hbody by left. simpl. rewrite IH.
    + by rewrite app_assoc.
    + intros j acc' Hj. apply Hbody. by right.
Qed.

(** ** Drawing with [choices] *)

Lemma word53_range w : 0 ≤ word53 w < 2 ^ 53.
Proof. unfold word53. apply Z.mod_pos_bound. lia. Qed.

Lemma scaled_floor_lt w n : (0 < n)%nat → (scaled_floor w n < n)%nat.
Proof.
  intros Hn. unfold scaled_floor.
  pose proof (word53_range w) as [H0 H1].
  assert (word53 w * Z.of_nat n / 2 ^ 53 < Z.of_nat n).
  { apply Z.div_lt_upper_bound; [lia|]. nia. }
  assert (0 ≤ word53 w * Z.of_nat n / 2 ^ 53).
  { apply Z.div_pos; lia. }
  lia.
Qed.

Lemma unit_float_range w : (0 <= unit_float w)%Q ∧ (unit_float w < 1)%Q.
Proof.
  pose proof (word53_range w) as [H0 H1].
  unfold unit_float, Qle, Qlt. simpl. split; lia.
Qed.

Lemma choices_from_ok {A} (population : list A) k rnd pos :
  population ≠ [] →
  ∃ xs, choices_from population k rnd pos = inr xs ∧
        length xs = k ∧ Forall (λ x, x ∈ population) xs.
Proof.
  intros Hne. revert pos. induction k as [|k IH]; intros pos; simpl.
  - exists []. auto.
  - assert (Hlt : (scaled_floor (rnd pos) (length population) < length population)%nat).
    { apply scaled_floor_lt. destruct population; [done|simpl; lia]. }
    destruct (lookup_lt_is_Some_2 _ _ Hlt) as [x Hx].
    unfold index. rewrite Hx. simpl.
    destruct (IH (S pos)) as (xs & -> & Hlen & Hall). simpl.
    exists (x :: xs). split; [done|]. split; [simpl; lia|].
    constructor; [|done]. by eapply list_elem_of_lookup_2.
Qed.

Lemma choices_ok {A} (population : list A) k rnd pos :
  population ≠ [] →
  ∃ xs, choices population k rnd pos = inr (xs, (pos + Z.to_nat k)%nat) ∧
        length xs = Z.to_nat k ∧ Forall (λ x, x ∈ population) xs.
Proof.
  intros Hne. unfold choices.
  destruct (choices_from_ok population (Z.to_nat k) rnd pos Hne) as (xs & -> & ? & ?).
  simpl. eauto.
Qed.

(** ** Sampling from a distribution *)

(** The value drawn has positive probability. *)
Lemma inverse_cdf_support d acc u b :
  (acc <= u)%Q → inverse_cdf d acc u = Some b →
  ∃ p, (b, p) ∈ d ∧ (0 < p)%Q.
Proof.
  revert acc. induction d as [|[o p] d IH]; intros acc Hacc; simpl; [done|].
  destruct (Qlt_le_dec u (acc + p)) as [Hlt|Hle].
  - intros [= <-]. exists p. split; [left|lra].
  - intros Hd. destruct (IH _ Hle Hd) as (p' & Hin & Hp').
    exists p'. split; [by right|done].
Qed.

(** A draw below the total mass always lands on a value. *)
Lemma inverse_cdf_total d acc u :
  (acc <= u)%Q → (u < acc + total d)%Q → is_Some (inverse_cdf d acc u).
Proof.
  revert acc. induction d as [|[o p] d IH]; intros acc Hacc Hu.
  - unfold total in Hu. simpl in Hu. lra.
  - simpl. destruct (Qlt_le_dec u (acc + p)) as [Hlt|Hle]; [by eexists|].
    apply IH; [done|]. unfold total in *. simpl in Hu. lra.
Qed.

Lemma np_choice_ok d w :
  (total d == 1)%Q →
  ∃ b p, np_choice d (unit_float w) = inr b ∧ (b, p) ∈ d ∧ (0 < p)%Q.
Proof.
  intros Htot. unfold np_choice.
  pose proof (unit_float_range w) as [H0 H1].
  rewrite (proj2 (Qeq_bool_iff _ _) Htot).
  destruct (inverse_cdf_total d 0 (unit_float w)) as [b Hb]; [done|lra|].
  rewrite Hb.
  destruct (inverse_cdf_support d 0 _ b H0 Hb) as (p & Hin & Hp).
  exists b, p. done.
Qed.

(** ** Sampling one qubit *)

(** On a qubit the draw reads 0 when it is below the probability of 0, and
    1 otherwise. *)
Lemma np_choice_qubit a w :
  normalized (born a) →
  np_choice (qubit_dist a) (unit_float w) = inr (bit_read (born a) w).
Proof.
  unfold normalized, np_choice, qubit_dist, bit_read, total.
  pose proof (unit_float_range w) as [Hu0 Hu1]. revert Hu0 Hu1.
  generalize (unit_float w) (born a). intros u [p0 p1] Hu0 Hu1 (H0 & H1 & Hsum).
  cbn [fst snd foldr inverse_cdf] in *.
  assert (p0 + (p1 + 0) == 1)%Q as Htot by lra.
  rewrite (proj2 (Qeq_bool_iff _ _) Htot).
  destruct (Qlt_le_dec u (0 + p0)) as [Hlt|Hle];
    destruct (Qlt_le_dec u p0) as [Hlt'|Hle']; try reflexivity; try lra.
  destruct (Qlt_le_dec u (0 + p0 + p1)) as [Hlt''|Hle'']; [reflexivity|lra].
Qed.

Lemma bit_read_bit p w : bit_read p w = 0 ∨ bit_read p w = 1.
Proof. unfold bit_read. destruct (Qlt_le_dec _ _); auto. Qed.

Lemma bit_read_sure_0 p w : (p.1 == 1)%Q → bit_read p w = 0.
Proof.
  intros Hp. unfold bit_read. pose proof (unit_float_range w) as [_ Hu].
  destruct (Qlt_le_dec _ _); [reflexivity|lra].
Qed.

Lemma bit_read_sure_1 p w : (p.1 == 0)%Q → bit_read p w = 1.
Proof.
  intros Hp. unfold bit_read. pose proof (unit_float_range w) as [Hu _].
  destruct (Qlt_le_dec _ _); [lra|reflexivity].
Qed.


Lemma prob_qubit_dist a :
  (prob (qubit_dist a) 0 == (born a).1)%Q ∧ (prob (qubit_dist a) 1 == (born a).2)%Q.
Proof.
  unfold prob, qubit_dist. generalize (born a). intros [p0 p1].
  rewrite !filter_cons, !filter_nil. cbn [fst snd]. unfold total.
  split; repeat first [rewrite decide_True by done | rewrite decide_False by done];
    cbn [foldr snd]; lra.
Qed.

(** Each qubit is read with a draw of its own: qubit [s + j] of a register
    sampled from position [s] on uses draw [s + j]. *)
Lemma sample_qubits_seq st rnd (a : nat → Amp) s k :
  (∀ q, (s ≤ q < s + k)%nat → st q = a q ∧ normalized (born (a q))) →
  sample_qubits st (seq s k) rnd s =
  inr ((λ q, (qubit_dist (a q), bit_read (born (a q)) (rnd q))) <$> seq s k).
Proof.
  revert s. induction k as [|k IH]; intros s Hst; [reflexivity|].
  cbn [seq sample_qubits]. destruct (Hst s) as [-> Hnorm]; [lia|].
  rewrite np_choice_qubit by done. cbn [bind].
  rewrite IH by (intros q Hq; apply Hst; lia). reflexivity.
Qed.

(** ** One-qubit gates act qubit by qubit *)

Lemma simulate_gates gs c st rnd pos :
  Forall is_gate gs →
  simulate (gs ++ c) st rnd pos = simulate c (evolve gs st) rnd pos.
Proof.
  intros Hgs. revert st. induction Hgs as [|[g q|] gs Hg _ IH]; intros st; simpl.
  - reflexivity.
  - apply IH.
  - destruct Hg.
Qed.

Lemma evolve_app c1 c2 st : evolve (c1 ++ c2) st = evolve c2 (evolve c1 st).
Proof.
  revert st. induction c1 as [|[g q|] c1 IH]; intros st; simpl; auto.
Qed.

Lemma evolve_qubit_ops gs i st q :
  evolve (qubit_ops gs i) st q =
  if decide (q = i) then apply_gates gs (st q) else st q.
Proof.
  revert st. induction gs as [|g gs IH]; intros st; simpl.
  - by case_decide.
  - rewrite IH. unfold update. destruct (decide (q = i)) as [->|]; reflexivity.
Qed.

Lemma evolve_concat (f : nat → list Gate) l st q :
  NoDup l →
  evolve (concat ((λ i, qubit_ops (f i) i) <$> l)) st q =
  if decide (q ∈ l) then apply_gates (f q) (st q) else st q.
Proof.
  intros Hl. revert st. induction Hl as [|i l Hi Hl IH]; intros st.
  - rewrite decide_False; [done|]. by intros ?%elem_of_nil.
  - rewrite fmap_cons, concat_cons, evolve_app, IH, !evolve_qubit_ops.
    destruct (decide (q = i)) as [->|Hne].
    + rewrite decide_False by done. rewrite decide_True; [done|left].
    + destruct (decide (q ∈ l)) as [Hin|Hnin].
      * rewrite decide_True; [done|by right].
      * rewrite decide_False; [done|]. by intros [?|?]%elem_of_cons.
Qed.

Lemma is_gate_concat (f : nat → list Gate) l :
  Forall is_gate (concat ((λ i, qubit_ops (f i) i) <$> l)).
Proof.
  induction l as [|i l IH]; simpl; [constructor|].
  apply Forall_app. split; [|exact IH].
  unfold qubit_ops. apply Forall_fmap, Forall_true. intros g. exact I.
Qed.

(** ** The circuits the loops build *)

Lemma index_nth {A} (l : list A) i d : (i < length l)%nat → index l i = inr (nth i l d).
Proof.
  intros Hi. destruct (lookup_lt_is_Some_2 _ _ Hi) as [x Hx].
  unfold index. rewrite Hx. by rewrite (nth_lookup_Some _ _ d _ Hx).
Qed.

Lemma nth_Forall {A} (P : A → Prop) (l : list A) i d :
  Forall P l → (i < length l)%nat → P (nth i l d).
Proof.
  intros Hl Hi. destruct (lookup_lt_is_Some_2 _ _ Hi) as [x Hx].
  rewrite (nth_lookup_Some _ _ d _ Hx). by eapply Forall_lookup_1.
Qed.

Lemma index_range n i : (i < Z.to_nat n)%nat → index (range n) i = inr i.
Proof.
  intros Hi. unfold index, range. by rewrite lookup_seq_lt.
Qed.

Lemma elem_of_range n i : i ∈ range n ↔ (i < Z.to_nat n)%nat.
Proof. unfold range. rewrite elem_of_seq. lia. Qed.

(** One case for each element of the literal list in [H : x ∈ [a; b; ..]]. *)
Ltac cases_of H :=
  repeat (apply elem_of_cons in H as [->|H]); [..|by apply elem_of_nil in H].

Lemma getitem_encode b : b ∈ [0; 1] → getitem encode_gates b = inr (encode_gate_of b).
Proof. intros Hb. cases_of Hb; reflexivity. Qed.

Lemma getitem_basis s :
  s ∈ ["X"; "Z"]%string → getitem basis_gates s = inr (basis_gate_of s).
Proof. intros Hs. cases_of Hs; reflexivity. Qed.

Lemma step3_spec n key bases :
  length key = Z.to_nat n → length bases = Z.to_nat n →
  bits_ok key → bases_ok bases →
  step3 n (NamedQubit_range n) key bases =
  inr (concat ((λ i, qubit_ops (alice_ops key bases i) i) <$> range n)).
Proof.
  intros Hk Hb Hkey Hbases. unfold step3.
  apply (for_each_appends (λ i, qubit_ops (alice_ops key bases i) i)).
  intros i acc Hi%elem_of_range.
  rewrite (index_nth key i 0) by lia. simpl.
  rewrite getitem_encode by (apply nth_Forall; [done|lia]). simpl.
  rewrite (index_nth bases i ""%string) by lia. simpl.
  rewrite getitem_basis by (apply nth_Forall; [done|lia]). simpl.
  unfold NamedQubit_range. rewrite index_range by done. reflexivity.
Qed.

Lemma step5_spec n bases :
  length bases = Z.to_nat n → bases_ok bases →
  step5 n (NamedQubit_range n) bases =
  inr (concat ((λ i, qubit_ops (bob_ops bases i) i) <$> range n)).
Proof.
  intros Hb Hbases. unfold step5.
  apply (for_each_appends (λ i, qubit_ops (bob_ops bases i) i)).
  intros i acc Hi%elem_of_range.
  rewrite (index_nth bases i ""%string) by lia. simpl.
  rewrite getitem_basis by (apply nth_Forall; [done|lia]). simpl.
  unfold NamedQubit_range. rewrite index_range by done. reflexivity.
Qed.

Lemma step6_spec n c :
  0 < n →
  step6 (NamedQubit_range n) c = inr (c ++ [MeasureOp (range n) "bob_key"]).
Proof.
  intros Hn. unfold step6, NamedQubit_range, cirq_measure, range.
  destruct (Z.to_nat n) as [|k] eqn:E; [lia|]. reflexivity.
Qed.

Lemma step6_empty n c : n ≤ 0 → step6 (NamedQubit_range n) c = inl ValueError.
Proof.
  intros Hn. unfold step6, NamedQubit_range, range.
  replace (Z.to_nat n) with 0%nat by lia. reflexivity.
Qed.

(** What the simulator measures: the gates of the two circuits bring qubit
    [q] to [photon key abases bbases q]. *)
Lemma measured_state n key abases bbases q :
  q ∈ range n →
  evolve
    (concat ((λ i, qubit_ops (alice_ops key abases i) i) <$> range n) ++
     concat ((λ i, qubit_ops (bob_ops bbases i) i) <$> range n)) init_state q
  = photon key abases bbases q.
Proof.
  intros Hq. rewrite evolve_app, !evolve_concat by apply NoDup_seq.
  by rewrite !decide_True by done.
Qed.

(** ** One photon: prepared by Alice, rotated and read by Bob *)

Lemma photon_normalized key abases bbases i :
  nth i key 0 ∈ [0; 1] →
  nth i abases ""%string ∈ ["X"; "Z"]%string →
  nth i bbases ""%string ∈ ["X"; "Z"]%string →
  normalized (born (photon key abases bbases i)).
Proof.
  unfold photon, alice_ops, bob_ops.
  generalize (nth i key 0), (nth i abases ""%string), (nth i bbases ""%string).
  intros b sa sb Hb Hsa Hsb.
  cases_of Hb; cases_of Hsa; cases_of Hsb; vm_compute; repeat split; discriminate.
Qed.

(** Same basis: the bit Alice encoded is the only reading with positive
    probability. *)
Lemma photon_same_basis key abases bbases i :
  nth i key 0 ∈ [0; 1] →
  nth i abases ""%string ∈ ["X"; "Z"]%string →
  nth i bbases ""%string = nth i abases ""%string →
  let p := born (photon key abases bbases i) in
  (nth i key 0 = 0 ∧ (p.1 == 1)%Q ∧ (p.2 == 0)%Q) ∨
  (nth i key 0 = 1 ∧ (p.1 == 0)%Q ∧ (p.2 == 1)%Q).
Proof.
  unfold photon, alice_ops, bob_ops.
  generalize (nth i key 0), (nth i abases ""%string), (nth i bbases ""%string).
  intros b sa sb Hb Hsa ->.
  cases_of Hb; cases_of Hsa; vm_compute; auto.
Qed.


Lemma prepared_photon n key abases bbases i :
  prepared n key abases bbases → (i < n)%nat →
  normalized (born (photon key abases bbases i)).
Proof.
  intros (Hk & Ha & Hb & Hkey & Habases & Hbbases) Hi.
  apply photon_normalized; apply nth_Forall; (done || lia).
Qed.

(** Same basis: Bob reads the bit Alice encoded, whatever the draw. *)
Lemma bit_read_same key abases bbases i w :
  nth i key 0 ∈ [0; 1] →
  nth i abases ""%string ∈ ["X"; "Z"]%string →
  nth i bbases ""%string = nth i abases ""%string →
  bit_read (born (photon key abases bbases i)) w = nth i key 0.
Proof.
  intros Hk Ha Hb.
  destruct (photon_same_basis key abases bbases i Hk Ha Hb) as [(E & P0 & P1)|(E & P0 & P1)];
    rewrite E.
  - by apply bit_read_sure_0.
  - by apply bit_read_sure_1.
Qed.


Lemma length_bob_reads key abases bbases rnd n :
  length (bob_reads key abases bbases rnd n) = n.
Proof. unfold bob_reads. by rewrite length_fmap, length_seq. Qed.

Lemma lookup_bob_reads key abases bbases rnd n i :
  (i < n)%nat →
  bob_reads key abases bbases rnd n !! i
  = Some (bit_read (born (photon key abases bbases i)) (rnd i)).
Proof.
  intros Hi. unfold bob_reads. by rewrite list_lookup_fmap, lookup_seq_lt by done.
Qed.

Lemma lookup_bob_dists key abases bbases n i :
  (i < n)%nat →
  bob_dists key abases bbases n !! i = Some (qubit_dist (photon key abases bbases i)).
Proof.
  intros Hi. unfold bob_dists. by rewrite list_lookup_fmap, lookup_seq_lt by done.
Qed.

(** The marginal at a position is the Born probability of the qubit
    measured there. *)
Lemma marginal_bob_dists key abases bbases n i :
  (i < n)%nat →
  (marginal (bob_dists key abases bbases n) i 0 == (born (photon key abases bbases i)).1)%Q ∧
  (marginal (bob_dists key abases bbases n) i 1 == (born (photon key abases bbases i)).2)%Q.
Proof.
  intros Hi. unfold marginal. rewrite lookup_bob_dists by done. apply prob_qubit_dist.
Qed.

Lemma bob_reads_ext key abases bbases rnd1 rnd2 n :
  (∀ i, (i < n)%nat → word53 (rnd1 i) = word53 (rnd2 i)) →
  bob_reads key abases bbases rnd1 n = bob_reads key abases bbases rnd2 n.
Proof.
  intros Hrnd. unfold bob_reads. apply list_fmap_ext.
  intros _ i Hi%list_elem_of_lookup_2. apply elem_of_seq in Hi.
  unfold bit_read, unit_float. by rewrite Hrnd by lia.
Qed.

(** ** Step 7: the simulation *)

Lemma sample_qubits_range st rnd n (a : nat → Amp) :
  (∀ q, q ∈ range n → st q = a q ∧ normalized (born (a q))) →
  sample_qubits st (range n) rnd 0 =
  inr ((λ q, (qubit_dist (a q), bit_read (born (a q)) (rnd q))) <$> range n).
Proof.
  intros Hst. unfold range. apply sample_qubits_seq.
  intros q Hq. apply Hst, elem_of_range. lia.
Qed.

Lemma step7_spec n key abases bbases rnd :
  prepared (Z.to_nat n) key abases bbases →
  let ca := concat ((λ i, qubit_ops (alice_ops key abases i) i) <$> range n) in
  let cb := concat ((λ i, qubit_ops (bob_ops bbases i) i) <$> range n) ++
            [MeasureOp (range n) "bob_key"] in
  let bits := bob_reads key abases bbases rnd (Z.to_nat n) in
  step7 ca cb rnd =
  inr (ca ++ cb,
       [mkMeasurement "bob_key" (bob_dists key abases bbases (Z.to_nat n)) bits],
       bits).
Proof.
  intros Hprep ca cb bits. unfold step7, sim_run.
  unfold cb at 1. rewrite app_assoc.
  rewrite simulate_gates by (apply Forall_app; split; apply is_gate_concat).
  cbn [simulate].
  rewrite (sample_qubits_range _ rnd n (photon key abases bbases)).
  - cbn [bind ret measurements m_key]. rewrite decide_True by done.
    cbn [bind ret m_bits]. rewrite <- !list_fmap_compose. reflexivity.
  - intros q Hq. split; [by apply measured_state|].
    apply (prepared_photon (Z.to_nat n)); [done|by apply elem_of_range].
Qed.

(** ** Phases 1 and 2 as a whole *)

Lemma phases_1_2_snd num_bits e :
  let n := Z.to_nat num_bits in
  ∃ key abases bbases,
    step1 num_bits (py_random e) 0 = inr (key, n) ∧
    step2 num_bits (py_random e) n = inr (abases, (n + n)%nat) ∧
    step4 num_bits (py_random e) (n + n) = inr (bbases, (n + n + n)%nat) ∧
    prepared n key abases bbases ∧
    (phases_1_2 num_bits e).2 =
      if decide (0 < num_bits) then
        let ca := concat ((λ i, qubit_ops (alice_ops key abases i) i) <$> range num_bits) in
        let cb := concat ((λ i, qubit_ops (bob_ops bbases i) i) <$> range num_bits) ++
                  [MeasureOp (range num_bits) "bob_key"] in
        let bits := bob_reads key abases bbases (np_random e) n in
        inr (mkTransmission key abases ca bbases cb (ca ++ cb)
               [mkMeasurement "bob_key" (bob_dists key abases bbases n) bits] bits)
      else inl ValueError.
Proof.
  intros n. subst n.
  destruct (choices_ok [0; 1] num_bits (py_random e) 0) as (key & H1 & Hk & Hkey); [done|].
  destruct (choices_ok ["X"; "Z"]%string num_bits (py_random e) (Z.to_nat num_bits))
    as (abases & H2 & Ha & Habases); [done|].
  destruct (choices_ok ["X"; "Z"]%string num_bits (py_random e)
              (Z.to_nat num_bits + Z.to_nat num_bits))
    as (bbases & H4 & Hb & Hbbases); [done|].
  exists key, abases, bbases. simpl in H1.
  assert (prepared (Z.to_nat num_bits) key abases bbases) as Hprep by done.
  unfold step1, step2, step4. repeat split; try done.
  unfold phases_1_2, step1, step2, step4.
  rewrite bind_cell_snd, H1. cbn [lift snd bind].
  rewrite bind_cell_snd. cbn [print snd bind ret].
  rewrite bind_cell_snd, H2. cbn [lift snd bind].
  rewrite bind_cell_snd. cbn [print snd bind ret].
  rewrite bind_cell_snd, step3_spec by done. cbn [lift snd bind].
  rewrite bind_cell_snd. cbn [print snd bind ret].
  rewrite bind_cell_snd, H4. cbn [lift snd bind].
  rewrite bind_cell_snd. cbn [print snd bind ret].
  rewrite bind_cell_snd, step5_spec by done. cbn [lift snd bind].
  rewrite bind_cell_snd.
  case_decide as Hn.
  - rewrite step6_spec by done. cbn [lift snd bind].
    rewrite bind_cell_snd. cbn [print snd bind ret].
    rewrite bind_cell_snd. cbn [lift snd]. rewrite step7_spec by done.
    reflexivity.
  - rewrite step6_empty by lia. reflexivity.
Qed.

(** ** Step 8: sifting *)

Lemma step8_loop (key : list Z) (abases bbases : list string) (bkey : list Z)
    (l : list nat) (keys keys' : Keys) :
  for_each l (λ bit keys,
    a <- index abases bit ;;
    b <- index bbases bit ;;
    if decide (a = b) then
      x <- index key bit ;;
      y <- index bkey bit ;;
      ret (mkKeys (final_alice_key keys ++ [x]) (final_bob_key keys ++ [y]))
    else ret keys) keys = inr keys' →
  ∃ xs ys,
    picks key (filter (λ i, abases !! i = bbases !! i) l) xs ∧
    picks bkey (filter (λ i, abases !! i = bbases !! i) l) ys ∧
    final_alice_key keys' = final_alice_key keys ++ xs ∧
    final_bob_key keys' = final_bob_key keys ++ ys.
Proof.
  revert keys. induction l as [|i l IH]; intros keys; simpl.
  - intros [= <-]. exists [], []. rewrite !app_nil_r. repeat split; constructor.
  - intros (keys1 & Hbody & Hrest)%bind_inr.
    apply bind_inr in Hbody as (a & Ha%index_inr & Hbody).
    apply bind_inr in Hbody as (b & Hb%index_inr & Hbody).
    destruct (IH _ Hrest) as (xs & ys & Hxs & Hys & Hfa & Hfb).
    rewrite filter_cons, Ha, Hb.
    destruct (decide (a = b)) as [->|Hne].
    + apply bind_inr in Hbody as (x & Hx%index_inr & Hbody).
      apply bind_inr in Hbody as (y & Hy%index_inr & [= <-]).
      rewrite decide_True by done. simpl in Hfa, Hfb.
      exists (x :: xs), (y :: ys). rewrite <- !app_assoc in Hfa, Hfb.
      repeat split; try done; by constructor.
    + injection Hbody as <-. rewrite decide_False by congruence.
      exists xs, ys. done.
Qed.

Lemma step8_inv n key abases bbases bkey keys :
  step8 n key abases bbases bkey = inr keys →
  picks key (matching abases bbases (Z.to_nat n)) (final_alice_key keys) ∧
  picks bkey (matching abases bbases (Z.to_nat n)) (final_bob_key keys).
Proof.
  intros (xs & ys & Hxs & Hys & Hfa & Hfb)%step8_loop.
  simpl in Hfa, Hfb. subst. done.
Qed.

Lemma step8_total n key abases bbases bkey :
  length key = Z.to_nat n → length abases = Z.to_nat n →
  length bbases = Z.to_nat n → length bkey = Z.to_nat n →
  ∃ keys, step8 n key abases bbases bkey = inr keys.
Proof.
  intros Hk Ha Hb Hbk. unfold step8.
  assert (∀ i, i ∈ range n → (i < Z.to_nat n)%nat) as Hr by (intros i; apply elem_of_range).
  generalize (mkKeys [] []). revert Hr. generalize (range n).
  induction l as [|i l IH]; intros Hr keys; simpl; [by eexists|].
  assert (i < Z.to_nat n)%nat as Hi by (apply Hr; left).
  rewrite (index_nth abases i ""%string), (index_nth bbases i ""%string) by lia.
  simpl. case_decide.
  - rewrite (index_nth key i 0), (index_nth bkey i 0) by lia. simpl.
    apply IH. intros j Hj. apply Hr. by right.
  - simpl. apply IH. intros j Hj. apply Hr. by right.
Qed.

Lemma StronglySorted_filter {A} (R : relation A) (P : A → Prop)
    `{!∀ x, Decision (P x)} (l : list A) :
  StronglySorted R l → StronglySorted R (filter P l).
Proof.
  induction 1 as [|x l Hl IH Hx]; [constructor|].
  rewrite filter_cons. case_decide; [|done].
  constructor; [done|].
  apply Forall_forall. intros y [_ Hy]%list_elem_of_filter.
  by eapply Forall_forall.
Qed.

Lemma StronglySorted_seq a n : StronglySorted lt (seq a n).
Proof.
  revert a. induction n as [|n IH]; intros a; simpl; constructor; [apply IH|].
  apply Forall_forall. intros i Hi%elem_of_seq. lia.
Qed.

Lemma matching_sorted abases bbases n : StronglySorted lt (matching abases bbases n).
Proof. apply StronglySorted_filter, StronglySorted_seq. Qed.

Lemma elem_of_matching abases bbases n i :
  i ∈ matching abases bbases n ↔ (i < n)%nat ∧ abases !! i = bbases !! i.
Proof. unfold matching. rewrite list_elem_of_filter, elem_of_seq. intuition lia. Qed.

Lemma picks_length {A} (l : list A) idxs xs : picks l idxs xs → length xs = length idxs.
Proof. intros H. symmetry. by eapply Forall2_length. Qed.

(** ** Step 9: the check *)

Lemma step9_equal a fa b fb :
  a = b →
  step9 (mkKeys (a :: fa) (b :: fb)) =
  ([PrintText (nl +:+ nl +:+ " We can use our keys!" +:+ nl);
    PrintList "Alice's Key: " fa; PrintList "Bob's Key: " fb],
   inr (Secure, mkKeys fa fb)).
Proof.
  intros ->. unfold step9, bind_cell. simpl. rewrite decide_True by done. reflexivity.
Qed.

Lemma step9_differ a fa b fb :
  a ≠ b →
  step9 (mkKeys (a :: fa) (b :: fb)) =
  ([PrintText (nl +:+ nl +:+ "Eve was lisening. We need to use a different channel!")],
   inr (Compromised, mkKeys (a :: fa) (b :: fb))).
Proof.
  intros Hne. unfold step9, bind_cell. simpl. rewrite decide_False by done. reflexivity.
Qed.

Lemma step9_empty fb : step9 (mkKeys [] fb) = ([], inl IndexError).
Proof. reflexivity. Qed.

(** ** The run, cell after cell *)

Lemma phases_1_2_inr num_bits e t :
  (phases_1_2 num_bits e).2 = inr t → transmitted num_bits e t.
Proof.
  destruct (phases_1_2_snd num_bits e)
    as (key & abases & bbases & H1 & H2 & H4 & Hprep & ->).
  case_decide as Hn; [|discriminate].
  intros [= <-]. unfold transmitted. simpl. done.
Qed.

Lemma phases_1_2_total num_bits e :
  0 < num_bits → ∃ t, (phases_1_2 num_bits e).2 = inr t.
Proof.
  intros Hn.
  destruct (phases_1_2_snd num_bits e)
    as (key & abases & bbases & H1 & H2 & H4 & Hprep & ->).
  rewrite decide_True by done. by eexists.
Qed.

Lemma phases_1_2_empty num_bits e :
  num_bits ≤ 0 → (phases_1_2 num_bits e).2 = inl ValueError.
Proof.
  intros Hn.
  destruct (phases_1_2_snd num_bits e) as (key & abases & bbases & _ & _ & _ & _ & ->).
  by rewrite decide_False by lia.
Qed.

Lemma lookup_eq_nth {A} (l1 l2 : list A) i d :
  (i < length l1)%nat → (i < length l2)%nat →
  l1 !! i = l2 !! i ↔ nth i l1 d = nth i l2 d.
Proof.
  intros [x1 H1]%lookup_lt_is_Some_2 [x2 H2]%lookup_lt_is_Some_2.
  rewrite (nth_lookup_Some _ _ d _ H1), (nth_lookup_Some _ _ d _ H2), H1, H2.
  split; congruence.
Qed.

(** Bob reads one bit per qubit, and reads Alice's bit wherever the bases agree. *)
Lemma transmitted_bob_key num_bits e t :
  transmitted num_bits e t →
  length (bob_key t) = Z.to_nat num_bits ∧
  ∀ i, (i < Z.to_nat num_bits)%nat → alice_bases t !! i = bob_bases t !! i →
       bob_key t !! i = alice_key t !! i.
Proof.
  intros (Hn & _ & _ & _ & (Hk & Ha & Hb' & Hkey & Habases & Hbbases) & -> & _).
  split; [apply length_bob_reads|]. intros i Hi Hb.
  rewrite lookup_bob_reads by done.
  destruct (lookup_lt_is_Some_2 (alice_key t) i) as [x Hx]; [lia|].
  rewrite Hx, <- (nth_lookup_Some _ _ 0 _ Hx). f_equal.
  apply bit_read_same; [apply nth_Forall; (done || lia)..|].
  symmetry. apply lookup_eq_nth; (done || lia).
Qed.

Lemma phase_3_step8_inr num_bits e s :
  (phase_3_step8 num_bits e).2 = inr s →
  (phases_1_2 num_bits e).2 = inr (sent s) ∧
  step8 num_bits (alice_key (sent s)) (alice_bases (sent s)) (bob_bases (sent s))
        (bob_key (sent s)) = inr (sifted s).
Proof.
  unfold phase_3_step8. rewrite bind_cell_snd.
  intros (t & Ht & H)%bind_inr. rewrite bind_cell_snd in H. cbn [lift snd] in H.
  apply bind_inr in H as (keys & Hkeys & H).
  rewrite !bind_cell_snd in H. simpl in H. injection H as <-. done.
Qed.

Lemma run_inr num_bits e r :
  (run num_bits e).2 = inr r →
  (phase_3_step8 num_bits e).2 = inr (before r) ∧
  (step9 (sifted (before r))).2 = inr (verdict r, final r).
Proof.
  unfold run. rewrite bind_cell_snd.
  intros (s & Hs & H)%bind_inr. rewrite bind_cell_snd in H.
  apply bind_inr in H as ([v keys] & Hr & [= <-]). done.
Qed.

(** Without noise the two sifted keys are the same list. *)
Lemma sifted_keys_agree num_bits e t keys :
  transmitted num_bits e t →
  step8 num_bits (alice_key t) (alice_bases t) (bob_bases t) (bob_key t) = inr keys →
  final_bob_key keys = final_alice_key keys.
Proof.
  intros Ht [Hfa Hfb]%step8_inv.
  destruct (transmitted_bob_key _ _ _ Ht) as [_ Hsame].
  eapply Forall2_unique; [| exact Hfa |].
  - unfold picks in *.
    apply Forall2_same_length_lookup. split; [by eapply Forall2_length|].
    intros j i y Hi Hy.
    pose proof (Forall2_lookup_lr _ _ _ _ _ _ Hfb Hi Hy) as Hpick. simpl in Hpick.
    apply list_elem_of_lookup_2, elem_of_matching in Hi as [Hi Hb].
    by rewrite <- Hsame.
  - simpl. congruence.
Qed.

Lemma run_from_step8 num_bits e t keys :
  (phases_1_2 num_bits e).2 = inr t →
  step8 num_bits (alice_key t) (alice_bases t) (bob_bases t) (bob_key t) = inr keys →
  (run num_bits e).2 =
  bind (step9 keys).2 (λ r, ret (mkRun (mkSifting t keys) r.1 r.2)).
Proof.
  intros Ht Hkeys. unfold run, phase_3_step8.
  rewrite !bind_cell_snd, Ht. cbn [bind].
  rewrite bind_cell_snd. cbn [lift snd]. rewrite Hkeys. cbn [bind].
  rewrite !bind_cell_snd. cbn [print lift snd bind ret sifted].
  rewrite bind_cell_snd. destruct (step9 keys).2; reflexivity.
Qed.

(** With no noise the run ends in the first branch of Step 9 as soon as one
    index has matching bases, and fails on [final_alice_key[0]] otherwise. *)
Lemma run_outcome num_bits e t :
  (phases_1_2 num_bits e).2 = inr t →
  ∃ keys,
    step8 num_bits (alice_key t) (alice_bases t) (bob_bases t) (bob_key t) = inr keys ∧
    final_bob_key keys = final_alice_key keys ∧
    (run num_bits e).2 =
      match final_alice_key keys with
      | [] => inl IndexError
      | _ :: fa => inr (mkRun (mkSifting t keys) Secure (mkKeys fa fa))
      end.
Proof.
  intros Ht. pose proof (phases_1_2_inr _ _ _ Ht) as Htr.
  destruct (transmitted_bob_key _ _ _ Htr) as [Hlen _].
  destruct Htr as (Hn & _ & _ & _ & (Hk & Ha & Hb & _) & _).
  destruct (step8_total num_bits (alice_key t) (alice_bases t) (bob_bases t) (bob_key t))
    as [keys Hkeys]; try done.
  pose proof (sifted_keys_agree _ _ _ _ (phases_1_2_inr _ _ _ Ht) Hkeys) as Hagree.
  exists keys. split; [done|]. split; [done|].
  rewrite (run_from_step8 _ _ _ _ Ht Hkeys).
  destruct keys as [fa fb]. simpl in *. subst fb.
  destruct fa as [|a fa].
  - by rewrite step9_empty.
  - by rewrite step9_equal.
Qed.

Lemma transmitted_record num_bits e t :
  transmitted num_bits e t →
  measurements (results t) "bob_key" =
  inr (mkMeasurement "bob_key"
         (bob_dists (alice_key t) (alice_bases t) (bob_bases t) (Z.to_nat num_bits))
         (bob_key t)).
Proof. intros (_ & _ & _ & _ & _ & _ & -> & _). reflexivity. Qed.






Lemma phase_3_step8_from num_bits e t keys :
  (phases_1_2 num_bits e).2 = inr t →
  step8 num_bits (alice_key t) (alice_bases t) (bob_bases t) (bob_key t) = inr keys →
  (phase_3_step8 num_bits e).2 = inr (mkSifting t keys).
Proof.
  intros Ht Hkeys. unfold phase_3_step8.
  rewrite bind_cell_snd, Ht. cbn [bind].
  rewrite bind_cell_snd. cbn [lift snd]. rewrite Hkeys. cbn [bind].
  rewrite !bind_cell_snd. reflexivity.
Qed.

Lemma picks_unique {A} (l : list A) idxs xs ys : picks l idxs xs → picks l idxs ys → xs = ys.
Proof.
  intros Hx Hy. eapply Forall2_unique; [exact Hx|exact Hy|]. simpl. congruence.
Qed.

Lemma run_no_match num_bits e t :
  (phases_1_2 num_bits e).2 = inr t →
  matching (alice_bases t) (bob_bases t) (Z.to_nat num_bits) = [] →
  (run num_bits e).2 = inl IndexError.
Proof.
  intros Ht Hm. destruct (run_outcome _ _ _ Ht) as (keys & Hkeys & _ & ->).
  destruct (step8_inv _ _ _ _ _ _ Hkeys) as [Hfa%picks_length _].
  rewrite Hm in Hfa. by destruct (final_alice_key keys).
Qed.

(** ** The run as a function of the draws *)

Lemma bind_cell_ret {A B} (a : A) (k : A → Cell B) : bind_cell (lift (inr a)) k = k a.
Proof. unfold bind_cell. simpl. by destruct (k a). Qed.

Lemma bind_cell_raise {A B} (err : exn) (k : A → Cell B) :
  bind_cell (lift (inl err)) k = ([], inl err).
Proof. reflexivity. Qed.

Lemma bind_cell_ext {A B} (m : Cell A) (k1 k2 : A → Cell B) :
  (∀ a, k1 a = k2 a) → bind_cell m k1 = bind_cell m k2.
Proof. intros Hk. unfold bind_cell. destruct m.2; [done|]. by rewrite Hk. Qed.

Lemma choices_from_ext {A} (population : list A) k rnd1 rnd2 pos :
  (∀ i, (pos ≤ i < pos + k)%nat → word53 (rnd1 i) = word53 (rnd2 i)) →
  choices_from population k rnd1 pos = choices_from population k rnd2 pos.
Proof.
  revert pos. induction k as [|k IH]; intros pos Hrnd; simpl; [done|].
  unfold scaled_floor. rewrite (Hrnd pos) by lia.
  rewrite (IH (S pos)); [done|]. intros i Hi. apply Hrnd. lia.
Qed.

Lemma choices_ext {A} (population : list A) k rnd1 rnd2 pos :
  (∀ i, (pos ≤ i < pos + Z.to_nat k)%nat → word53 (rnd1 i) = word53 (rnd2 i)) →
  choices population k rnd1 pos = choices population k rnd2 pos.
Proof. intros Hrnd. unfold choices. by rewrite (choices_from_ext _ _ rnd1 rnd2). Qed.

Lemma phases_1_2_ext num_bits e1 e2 :
  (∀ i, (i < 3 * Z.to_nat num_bits)%nat →
        word53 (py_random e1 i) = word53 (py_random e2 i)) →
  (∀ i, (i < Z.to_nat num_bits)%nat →
        word53 (np_random e1 i) = word53 (np_random e2 i)) →
  phases_1_2 num_bits e1 = phases_1_2 num_bits e2.
Proof.
  intros Hpy Hnp.
  destruct (phases_1_2_snd num_bits e1)
    as (key & abases & bbases & H1 & H2 & H4 & Hprep & _).
  pose proof Hprep as (Hk & Ha & Hb & Hkey & Habases & Hbbases).
  unfold phases_1_2.
  assert (step1 num_bits (py_random e2) 0 = inr (key, Z.to_nat num_bits)) as H1'.
  { rewrite <- H1. unfold step1. symmetry. apply choices_ext. intros i Hi. apply Hpy. lia. }
  assert (step2 num_bits (py_random e2) (Z.to_nat num_bits)
          = inr (abases, (Z.to_nat num_bits + Z.to_nat num_bits)%nat)) as H2'.
  { rewrite <- H2. unfold step2. symmetry. apply choices_ext. intros i Hi. apply Hpy. lia. }
  assert (step4 num_bits (py_random e2) (Z.to_nat num_bits + Z.to_nat num_bits)
          = inr (bbases, (Z.to_nat num_bits + Z.to_nat num_bits + Z.to_nat num_bits)%nat))
    as H4'.
  { rewrite <- H4. unfold step4. symmetry. apply choices_ext. intros i Hi. apply Hpy. lia. }
  rewrite H1, H1', !bind_cell_ret. apply bind_cell_ext. intros _.
  rewrite H2, H2', !bind_cell_ret. apply bind_cell_ext. intros _.
  rewrite step3_spec, !bind_cell_ret by done. apply bind_cell_ext. intros _.
  rewrite H4, H4', !bind_cell_ret. apply bind_cell_ext. intros _.
  rewrite step5_spec, !bind_cell_ret by done.
  destruct (decide (0 < num_bits)) as [Hn|Hn].
  - rewrite step6_spec, !bind_cell_ret by done. apply bind_cell_ext. intros _.
    rewrite !step7_spec by done. cbv zeta.
    by rewrite (bob_reads_ext _ _ _ (np_random e1) (np_random e2)).
  - rewrite step6_empty by lia. by rewrite !bind_cell_raise.
Qed.

(** ** Which runs complete *)

Lemma run_nonpositive num_bits e :
  num_bits ≤ 0 →
  run num_bits e =
  ([PrintList "Alice's Initial Key: " [];
    PrintStrs "Alice's randomly choosen bases: " [];
    PrintCircuit ("Alice's Phase 1 Circuit: " +:+ nl +:+ nl) [];
    PrintStrs "Bob's randomly choosen bases: " []],
   inl ValueError).
Proof.
  intros Hn.
  unfold run, phase_3_step8, phases_1_2, step1, step2, step3, step4, step5, step6,
    choices, NamedQubit_range, range.
  replace (Z.to_nat num_bits) with 0%nat by lia. reflexivity.
Qed.

(** ** A small run to try the statements on *)

Example demo_run_values :
  alice_key demo_sent = [1; 0; 1] ∧
  alice_bases demo_sent = ["X"; "Z"; "Z"]%string ∧
  bob_bases demo_sent = ["X"; "X"; "Z"]%string ∧
  bob_key demo_sent = [1; 1; 1] ∧
  sent (before demo_run) = demo_sent ∧
  sifted (before demo_run) = mkKeys [1; 1] [1; 1] ∧
  verdict demo_run = Secure ∧
  final demo_run = mkKeys [1] [1].
Proof. repeat split. Qed.

(** ** The specification's claims *)

(** C1. Whenever the run ends in the Secure branch, the final keys of
    Alice and Bob are the same list, and each is one element shorter than
    the sifted key Step 8 produced (which is then non-empty). *)
Theorem secure_final_keys_equal num_bits e r :
  (run num_bits e).2 = inr r → verdict r = Secure →
  final_alice_key (final r) = final_bob_key (final r) ∧
  length (final_alice_key (final r)) =
    (length (final_alice_key (sifted (before r))) - 1)%nat ∧
  length (final_bob_key (final r)) =
    (length (final_bob_key (sifted (before r))) - 1)%nat ∧
  final_alice_key (sifted (before r)) ≠ [].
Proof.
  intros Hr _.
  destruct (run_inr _ _ _ Hr) as [[Ht Hkeys]%phase_3_step8_inr _].
  destruct (run_outcome _ _ _ Ht) as (keys & Hkeys' & Hagree & Hrun).
  rewrite Hkeys in Hkeys'. injection Hkeys' as <-.
  rewrite Hr in Hrun. rewrite Hagree.
  destruct (final_alice_key (sifted (before r))) as [|a fa] eqn:Hfa;
    [discriminate|].
  injection Hrun as Hr'. rewrite Hr'. simpl. rewrite Nat.sub_0_r. done.
Qed.

Lemma secure_final_keys_equal_witness :
  (run 3 demo_entropy).2 = inr demo_run ∧ verdict demo_run = Secure ∧
  final_alice_key (final demo_run) = final_bob_key (final demo_run) ∧
  length (final_alice_key (final demo_run)) =
    (length (final_alice_key (sifted (before demo_run))) - 1)%nat ∧
  length (final_bob_key (final demo_run)) =
    (length (final_bob_key (sifted (before demo_run))) - 1)%nat ∧
  final_alice_key (sifted (before demo_run)) ≠ [].
Proof.
  split; [vm_compute; reflexivity|]. split; [reflexivity|].
  apply (secure_final_keys_equal 3 demo_entropy demo_run); vm_compute; reflexivity.
Defined.

(** C2. At every index where Alice's and Bob's bases are equal, the bit Bob
    measures is the bit Alice prepared, whatever the random sources give;
    the distribution the simulator draws that position of Bob's record
    from puts probability 1 on that bit. *)
Theorem matching_basis_recovers_bit num_bits e :
  1 ≤ num_bits →
  ∃ t, (phases_1_2 num_bits e).2 = inr t ∧
    ∀ i s, alice_bases t !! i = Some s → bob_bases t !! i = Some s →
      ∃ b m,
        alice_key t !! i = Some b ∧ bob_key t !! i = Some b ∧
        measurements (results t) "bob_key" = inr m ∧ m_bits m = bob_key t ∧
        (marginal (m_probs m) i b == 1)%Q.
Proof.
  intros Hn. destruct (phases_1_2_total num_bits e) as [t Ht]; [lia|].
  exists t. split; [done|]. intros i s Ha Hb.
  apply phases_1_2_inr in Ht as Htr.
  pose proof (transmitted_record _ _ _ Htr) as Hm.
  destruct (transmitted_bob_key _ _ _ Htr) as [_ Hsame].
  destruct Htr as (_ & _ & _ & _ & (Hk & Hla & Hlb & Hkey & Habases & Hbbases) & _).
  assert (i < Z.to_nat num_bits)%nat as Hi by (rewrite <- Hla; by eapply lookup_lt_Some).
  destruct (lookup_lt_is_Some_2 (alice_key t) i) as [b Hbit]; [lia|].
  eexists b, _. split; [done|]. split; [rewrite Hsame; congruence|].
  split; [exact Hm|]. split; [reflexivity|]. cbn [m_probs].
  destruct (marginal_bob_dists (alice_key t) (alice_bases t) (bob_bases t)
              (Z.to_nat num_bits) i Hi) as [E0 E1].
  rewrite <- (nth_lookup_Some _ _ 0 _ Hbit).
  destruct (photon_same_basis (alice_key t) (alice_bases t) (bob_bases t) i)
    as [(-> & P0 & P1)|(-> & P0 & P1)].
  - apply nth_Forall; [done|lia].
  - apply nth_Forall; [done|lia].
  - by rewrite (nth_lookup_Some _ _ ""%string _ Ha), (nth_lookup_Some _ _ ""%string _ Hb).
  - by rewrite E0.
  - by rewrite E1.
Qed.

Lemma matching_basis_recovers_bit_witness :
  1 ≤ 3 ∧
  ∃ t, (phases_1_2 3 demo_entropy).2 = inr t ∧
    ∀ i s, alice_bases t !! i = Some s → bob_bases t !! i = Some s →
      ∃ b m,
        alice_key t !! i = Some b ∧ bob_key t !! i = Some b ∧
        measurements (results t) "bob_key" = inr m ∧ m_bits m = bob_key t ∧
        (marginal (m_probs m) i b == 1)%Q.
Proof.
  split; [lia|]. apply (matching_basis_recovers_bit 3 demo_entropy). lia.
Defined.



(** C4. After Step 8 the two sifted keys have the same length, which is the
    number of indices at which the basis lists agree, and each lists the
    bits of its party at exactly those indices, in increasing index
    order. *)
Theorem sifted_keys_shape num_bits e :
  1 ≤ num_bits →
  ∃ s, (phase_3_step8 num_bits e).2 = inr s ∧
    let idxs := matching (alice_bases (sent s)) (bob_bases (sent s)) (Z.to_nat num_bits) in
    length (final_alice_key (sifted s)) = length (final_bob_key (sifted s)) ∧
    length (final_alice_key (sifted s)) = length idxs ∧
    (∀ i, i ∈ idxs ↔
          (i < Z.to_nat num_bits)%nat ∧
          alice_bases (sent s) !! i = bob_bases (sent s) !! i) ∧
    StronglySorted lt idxs ∧
    picks (alice_key (sent s)) idxs (final_alice_key (sifted s)) ∧
    picks (bob_key (sent s)) idxs (final_bob_key (sifted s)).
Proof.
  intros Hn. destruct (phases_1_2_total num_bits e) as [t Ht]; [lia|].
  destruct (run_outcome _ _ _ Ht) as (keys & Hkeys & _ & _).
  exists (mkSifting t keys). split; [by apply phase_3_step8_from|].
  destruct (step8_inv _ _ _ _ _ _ Hkeys) as [Hfa Hfb]. simpl.
  rewrite (picks_length _ _ _ Hfa), (picks_length _ _ _ Hfb).
  split; [done|]. split; [done|].
  split; [intros i; apply elem_of_matching|].
  split; [apply matching_sorted|]. done.
Qed.

Lemma sifted_keys_shape_witness :
  1 ≤ 3 ∧
  ∃ s, (phase_3_step8 3 demo_entropy).2 = inr s ∧
    let idxs := matching (alice_bases (sent s)) (bob_bases (sent s)) (Z.to_nat 3) in
    length (final_alice_key (sifted s)) = length (final_bob_key (sifted s)) ∧
    length (final_alice_key (sifted s)) = length idxs ∧
    (∀ i, i ∈ idxs ↔
          (i < Z.to_nat 3)%nat ∧
          alice_bases (sent s) !! i = bob_bases (sent s) !! i) ∧
    StronglySorted lt idxs ∧
    picks (alice_key (sent s)) idxs (final_alice_key (sifted s)) ∧
    picks (bob_key (sent s)) idxs (final_bob_key (sifted s)).
Proof.
  split; [lia|]. apply (sifted_keys_shape 3 demo_entropy). lia.
Defined.

(** C5, as stated, fails: on the bits and bases of the example the bases
    agree at the indices 0, 1, 2, 4, 6, 7, 9 (6 is in, 8 is not), so the
    sifted key is [0,0,0,0,0,1,1] and not [0,0,0,0,1,0,1]. *)
Lemma spec_example_sifts_other_indices :
  alice_key <$> value (phases_1_2 10 notebook_entropy).2 = Some recorded_key ∧
  alice_bases <$> value (phases_1_2 10 notebook_entropy).2 = Some recorded_alice_bases ∧
  bob_bases <$> value (phases_1_2 10 notebook_entropy).2 = Some recorded_bob_bases ∧
  matching recorded_alice_bases recorded_bob_bases 10 ≠ [0; 1; 2; 4; 7; 8; 9]%nat ∧
  final_alice_key ∘ sifted <$> value (phase_3_step8 10 notebook_entropy).2
    ≠ Some [0; 0; 0; 0; 1; 0; 1] ∧
  final_alice_key ∘ final <$> value (run 10 notebook_entropy).2
    ≠ Some [0; 0; 0; 1; 0; 1].
Proof.
  repeat split; try (vm_compute; reflexivity); vm_compute; discriminate.
Qed.

(** C5, amended. On the bits and bases of the example, whatever the
    simulator draws: the bases agree at the indices 0, 1, 2, 4, 6, 7, 9,
    both sifted keys are [0,0,0,0,0,1,1], the first bits are equal, and
    both final keys are [0,0,0,0,1,1]. *)
Theorem spec_example_keys (np : nat → Z) :
  let e := mkEntropy (draws_of recorded_draws) np in
  alice_key <$> value (phases_1_2 10 e).2 = Some recorded_key ∧
  alice_bases <$> value (phases_1_2 10 e).2 = Some recorded_alice_bases ∧
  bob_bases <$> value (phases_1_2 10 e).2 = Some recorded_bob_bases ∧
  matching recorded_alice_bases recorded_bob_bases 10 = [0; 1; 2; 4; 6; 7; 9]%nat ∧
  sifted <$> value (phase_3_step8 10 e).2
    = Some (mkKeys [0; 0; 0; 0; 0; 1; 1] [0; 0; 0; 0; 0; 1; 1]) ∧
  verdict <$> value (run 10 e).2 = Some Secure ∧
  final <$> value (run 10 e).2 = Some (mkKeys [0; 0; 0; 0; 1; 1] [0; 0; 0; 0; 1; 1]).
Proof.
  intros e.
  destruct (phases_1_2_total 10 e) as [t Ht]; [lia|].
  destruct (phases_1_2_inr _ _ _ Ht) as (_ & H1 & H2 & H4 & _).
  assert (step1 10 (py_random e) 0 = inr (recorded_key, 10%nat)) as E1
    by (vm_compute; reflexivity).
  assert (step2 10 (py_random e) 10 = inr (recorded_alice_bases, 20%nat)) as E2
    by (vm_compute; reflexivity).
  assert (step4 10 (py_random e) 20 = inr (recorded_bob_bases, 30%nat)) as E4
    by (vm_compute; reflexivity).
  change (Z.to_nat 10) with 10%nat in H1, H2, H4.
  change (10 + 10)%nat with 20%nat in H2, H4.
  change (20 + 10)%nat with 30%nat in H4.
  rewrite E1 in H1. rewrite E2 in H2. rewrite E4 in H4.
  injection H1 as Hk. injection H2 as Ha. injection H4 as Hb.
  symmetry in Hk, Ha, Hb.
  destruct (run_outcome _ _ _ Ht) as (keys & Hkeys & Hagree & Hrun).
  pose proof (phase_3_step8_from _ _ _ _ Ht Hkeys) as Hs.
  destruct (step8_inv _ _ _ _ _ _ Hkeys) as [Hfa _].
  rewrite Hk, Ha, Hb in Hfa.
  assert (final_alice_key keys = [0; 0; 0; 0; 0; 1; 1]) as Hfa'.
  { apply (picks_unique _ _ _ _ Hfa). vm_compute. repeat constructor. }
  destruct keys as [fa fb]. cbn [final_alice_key final_bob_key] in Hagree, Hfa', Hrun.
  subst fa fb. rewrite Ht, Hs, Hrun. cbn [value fmap option_fmap option_map].
  cbn [sent sifted before verdict final].
  rewrite Hk, Ha, Hb. repeat split.
Qed.

(** C6 fails on the code.  With no matching basis Step 8 leaves both keys
    empty and Step 9 evaluates [final_alice_key[0]]: the run stops with an
    IndexError instead of reporting an inconclusive result. *)
Theorem run_without_matching_basis_raises :
  sifted <$> value (phase_3_step8 1 no_match_entropy).2 = Some (mkKeys [] []) ∧
  run 1 no_match_entropy =
  ([PrintList "Alice's Initial Key: " [0];
    PrintStrs "Alice's randomly choosen bases: " ["X"%string];
    PrintCircuit ("Alice's Phase 1 Circuit: " +:+ nl +:+ nl)
      [GateOp cirq_I 0; GateOp cirq_H 0];
    PrintStrs "Bob's randomly choosen bases: " ["Z"%string];
    PrintText ("Bob's Phase 2 Circuit: " +:+ nl +:+ nl);
    PrintArray "Bob's inital key: " [0];
    PrintList "Final Alice's Key : " [];
    PrintList (nl +:+ "Final Bob's Key : ") []],
   inl IndexError).
Proof. split; vm_compute; reflexivity. Qed.

(** C7. The notebook takes no seed argument; what a seed fixes is the
    state of the two generators, hence the values they hand out.  The run
    is a function of [num_bits] and of those values: two runs whose first
    [3 * num_bits] calls of [random()] and whose first [num_bits] draws of
    the simulator (one for each qubit) return the same values print the
    same output and end with the same bits, bases, measurement record and
    verdict, or with the same exception. *)
Theorem run_determined_by_draws num_bits e1 e2 :
  (∀ i, (i < 3 * Z.to_nat num_bits)%nat →
        word53 (py_random e1 i) = word53 (py_random e2 i)) →
  (∀ i, (i < Z.to_nat num_bits)%nat →
        word53 (np_random e1 i) = word53 (np_random e2 i)) →
  run num_bits e1 = run num_bits e2.
Proof.
  intros Hpy Hnp. unfold run, phase_3_step8.
  by rewrite (phases_1_2_ext num_bits e1 e2).
Qed.

Lemma run_determined_by_draws_witness :
  (∀ i, (i < 3 * Z.to_nat 3)%nat →
        word53 (py_random demo_entropy i) = word53 (py_random demo_entropy' i)) ∧
  (∀ i, (i < Z.to_nat 3)%nat →
        word53 (np_random demo_entropy i) = word53 (np_random demo_entropy' i)) ∧
  run 3 demo_entropy = run 3 demo_entropy'.
Proof.
  assert (∀ i, (i < 3 * Z.to_nat 3)%nat →
            word53 (py_random demo_entropy i) = word53 (py_random demo_entropy' i)) as H.
  { intros i Hi. do 9 (destruct i as [|i]; [reflexivity|]). simpl in Hi. lia. }
  assert (∀ i, (i < Z.to_nat 3)%nat →
            word53 (np_random demo_entropy i) = word53 (np_random demo_entropy' i)) as H'.
  { intros i Hi. do 3 (destruct i as [|i]; [reflexivity|]). simpl in Hi. lia. }
  split; [exact H|]. split; [exact H'|].
  apply (run_determined_by_draws 3 demo_entropy demo_entropy' H H').
Defined.

(** C8, as stated, fails.  With [num_bits = 0] nothing is rejected up
    front: Steps 1 to 5 run and print, and the run stops in Step 6 on the
    ValueError Cirq raises for a measurement of no qubits.  With
    [num_bits = 1] and different bases the run stops on an IndexError,
    with no result. *)
Lemma run_not_validated :
  run 0 demo_entropy =
  ([PrintList "Alice's Initial Key: " [];
    PrintStrs "Alice's randomly choosen bases: " [];
    PrintCircuit ("Alice's Phase 1 Circuit: " +:+ nl +:+ nl) [];
    PrintStrs "Bob's randomly choosen bases: " []],
   inl ValueError) ∧
  (run 1 no_match_entropy).2 = inl IndexError.
Proof. split; vm_compute; reflexivity. Qed.

(** C8, amended. [num_bits] is not validated.  For [num_bits <= 0] Steps 1
    to 5 run on empty lists and Step 6 raises ValueError.  For
    [num_bits >= 1] Steps 1 to 7 complete, and whenever the bases agree at
    one index at least the whole run completes, in the Secure branch. *)
Theorem run_completion num_bits e :
  (num_bits ≤ 0 ∧
   run num_bits e =
   ([PrintList "Alice's Initial Key: " [];
     PrintStrs "Alice's randomly choosen bases: " [];
     PrintCircuit ("Alice's Phase 1 Circuit: " +:+ nl +:+ nl) [];
     PrintStrs "Bob's randomly choosen bases: " []],
    inl ValueError)) ∨
  (1 ≤ num_bits ∧
   ∃ t, (phases_1_2 num_bits e).2 = inr t ∧
        (matching (alice_bases t) (bob_bases t) (Z.to_nat num_bits) ≠ [] →
         ∃ r, (run num_bits e).2 = inr r ∧ sent (before r) = t ∧ verdict r = Secure)).
Proof.
  destruct (decide (num_bits ≤ 0)) as [Hn|Hn].
  - left. split; [done|]. by apply run_nonpositive.
  - right. split; [lia|].
    destruct (phases_1_2_total num_bits e) as [t Ht]; [lia|].
    exists t. split; [done|]. intros Hm.
    destruct (run_outcome _ _ _ Ht) as (keys & Hkeys & _ & ->).
    destruct (step8_inv _ _ _ _ _ _ Hkeys) as [Hfa%picks_length _].
    destruct (final_alice_key keys) as [|a fa].
    + destruct (matching _ _ _); [done|discriminate].
    + eexists. split; [reflexivity|]. done.
Qed.

Lemma run_completion_witness :
  1 ≤ 3 ∧ (phases_1_2 3 demo_entropy).2 = inr demo_sent ∧
  matching (alice_bases demo_sent) (bob_bases demo_sent) (Z.to_nat 3) ≠ [] ∧
  ∃ r, (run 3 demo_entropy).2 = inr r ∧ sent (before r) = demo_sent ∧ verdict r = Secure.
Proof.
  split; [lia|]. split; [vm_compute; reflexivity|]. split; [discriminate|].
  destruct (run_completion 3 demo_entropy) as [[Hn _]|[_ (t & Ht & Hr)]]; [lia|].
  assert (t = demo_sent) as ->.
  { assert ((phases_1_2 3 demo_entropy).2 = inr demo_sent) as E by (vm_compute; reflexivity).
    congruence. }
  apply Hr. discriminate.
Defined.

(** C9. When both sifted keys are non-empty and their first bits differ,
    Step 9 takes its second branch: it prints the warning and nothing
    else, so no key is handed out.  (The second component of the result is
    the state of the two key variables, see C10, not an output.) *)
Theorem differing_first_bits_end_compromised keys a fa b fb :
  final_alice_key keys = a :: fa → final_bob_key keys = b :: fb → a ≠ b →
  (step9 keys).1 =
    [PrintText (nl +:+ nl +:+ "Eve was lisening. We need to use a different channel!")] ∧
  ∃ keys', (step9 keys).2 = inr (Compromised, keys').
Proof.
  intros Ha Hb Hne. destruct keys as [ka kb]. simpl in Ha, Hb. subst ka kb.
  rewrite step9_differ by done. simpl. eauto.
Qed.

Lemma differing_first_bits_end_compromised_witness :
  final_alice_key (mkKeys [0; 1] [1; 1]) = 0 :: [1] ∧
  final_bob_key (mkKeys [0; 1] [1; 1]) = 1 :: [1] ∧ 0 ≠ 1 ∧
  (step9 (mkKeys [0; 1] [1; 1])).1 =
    [PrintText (nl +:+ nl +:+ "Eve was lisening. We need to use a different channel!")] ∧
  ∃ keys', (step9 (mkKeys [0; 1] [1; 1])).2 = inr (Compromised, keys').
Proof.
  split; [reflexivity|]. split; [reflexivity|]. split; [discriminate|].
  apply (differing_first_bits_end_compromised (mkKeys [0; 1] [1; 1]) 0 [1] 1 [1]);
    [reflexivity|reflexivity|discriminate].
Defined.

(** C10. In the second branch of Step 9 both key variables are left as
    Step 8 set them: they still hold the whole sifted keys, whose first
    bits differ. *)
Theorem compromised_keeps_sifted_keys keys keys' :
  (step9 keys).2 = inr (Compromised, keys') →
  keys' = keys ∧
  ∃ a fa b fb,
    final_alice_key keys' = a :: fa ∧ final_bob_key keys' = b :: fb ∧ a ≠ b.
Proof.
  destruct keys as [[|a fa] [|b fb]]; try discriminate.
  destruct (decide (a = b)) as [->|Hne].
  - rewrite step9_equal by done. discriminate.
  - rewrite step9_differ by done. simpl. intros [= <-].
    split; [done|]. by exists a, fa, b, fb.
Qed.

Lemma compromised_keeps_sifted_keys_witness :
  (step9 (mkKeys [0; 1] [1; 1])).2 = inr (Compromised, mkKeys [0; 1] [1; 1]) ∧
  mkKeys [0; 1] [1; 1] = mkKeys [0; 1] [1; 1] ∧
  ∃ a fa b fb,
    final_alice_key (mkKeys [0; 1] [1; 1]) = a :: fa ∧
    final_bob_key (mkKeys [0; 1] [1; 1]) = b :: fb ∧ a ≠ b.
Proof.
  split; [reflexivity|].
  apply (compromised_keeps_sifted_keys (mkKeys [0; 1] [1; 1]) (mkKeys [0; 1] [1; 1])).
  reflexivity.
Defined.

(** ** The notebook's recorded execution *)

(** With the draws the recorded execution made, the model prints what the
    notebook's output cells show. *)
Example recorded_output :
  (run 10 notebook_entropy).1 =
  [PrintList "Alice's Initial Key: " [0; 0; 0; 1; 0; 0; 0; 1; 0; 1];
   PrintStrs "Alice's randomly choosen bases: " recorded_alice_bases;
   PrintCircuit ("Alice's Phase 1 Circuit: " +:+ nl +:+ nl)
     [GateOp cirq_I 0; GateOp cirq_H 0; GateOp cirq_I 1; GateOp cirq_I 1;
      GateOp cirq_I 2; GateOp cirq_H 2; GateOp cirq_X 3; GateOp cirq_I 3;
      GateOp cirq_I 4; GateOp cirq_I 4; GateOp cirq_I 5; GateOp cirq_I 5;
      GateOp cirq_I 6; GateOp cirq_H 6; GateOp cirq_X 7; GateOp cirq_I 7;
      GateOp cirq_I 8; GateOp cirq_H 8; GateOp cirq_X 9; GateOp cirq_I 9];
   PrintStrs "Bob's randomly choosen bases: " recorded_bob_bases;
   PrintText ("Bob's Phase 2 Circuit: " +:+ nl +:+ nl);
   PrintArray "Bob's inital key: " [0; 0; 0; 1; 0; 1; 0; 1; 1; 1];
   PrintList "Final Alice's Key : " [0; 0; 0; 0; 0; 1; 1];
   PrintList (nl +:+ "Final Bob's Key : ") [0; 0; 0; 0; 0; 1; 1];
   PrintText (nl +:+ nl +:+ " We can use our keys!" +:+ nl);
   PrintList "Alice's Key: " [0; 0; 0; 0; 1; 1];
   PrintList "Bob's Key: " [0; 0; 0; 0; 1; 1]].
Proof. vm_compute. reflexivity. Qed.

(** * Further properties of the cells *)

(** ** Steps 1, 2 and 4: what each draw decides *)

Lemma scaled_floor_two w :
  scaled_floor w 2 = if decide (word53 w < 2 ^ 52) then 0%nat else 1%nat.
Proof.
  unfold scaled_floor. pose proof (word53_range w) as [H0 H1].
  change (Z.of_nat 2) with 2. case_decide as Hw.
  - rewrite Z.div_small by lia. reflexivity.
  - replace (word53 w * 2 / 2 ^ 53) with 1; [reflexivity|].
    apply (Z.div_unique _ _ 1 (word53 w * 2 - 2 ^ 53)); lia.
Qed.

Lemma choices_from_pair {A} (x0 x1 : A) k rnd pos :
  choices_from [x0; x1] k rnd pos = inr ((λ i, coin x0 x1 (rnd i)) <$> seq pos k).
Proof.
  revert pos. induction k as [|k IH]; intros pos; simpl; [reflexivity|].
  rewrite scaled_floor_two, IH. unfold coin. by case_decide.
Qed.

Lemma transmitted_draws num_bits e t :
  (phases_1_2 num_bits e).2 = inr t →
  let n := Z.to_nat num_bits in
  alice_key t = (λ i, coin 0 1 (py_random e i)) <$> seq 0 n ∧
  alice_bases t = (λ i, coin "X" "Z" (py_random e i))%string <$> seq n n ∧
  bob_bases t = (λ i, coin "X" "Z" (py_random e i))%string <$> seq (n + n) n.
Proof.
  intros Ht n.
  destruct (phases_1_2_inr _ _ _ Ht) as (_ & H1 & H2 & H4 & _).
  unfold step1, step2, step4, choices in H1, H2, H4.
  rewrite choices_from_pair in H1. rewrite choices_from_pair in H2.
  rewrite choices_from_pair in H4. simpl in H1, H2, H4.
  injection H1 as <-. injection H2 as <-. injection H4 as <-. done.
Qed.

(** X1. Every element of the three random lists is decided by one call of
    [random()] of its own: call [i] gives [alice_key[i]], call
    [num_bits + i] gives [alice_bases[i]] and call [2 * num_bits + i] gives
    [bob_bases[i]]; a value below one half gives 0, respectively 'X',
    any other value 1, respectively 'Z'. *)
Theorem draws_decide_choices num_bits e :
  1 ≤ num_bits →
  let n := Z.to_nat num_bits in
  ∃ t, (phases_1_2 num_bits e).2 = inr t ∧
    alice_key t = (λ i, coin 0 1 (py_random e i)) <$> seq 0 n ∧
    alice_bases t = (λ i, coin "X" "Z" (py_random e i))%string <$> seq n n ∧
    bob_bases t = (λ i, coin "X" "Z" (py_random e i))%string <$> seq (n + n) n.
Proof.
  intros Hn n. destruct (phases_1_2_total num_bits e) as [t Ht]; [lia|].
  exists t. split; [done|]. by apply transmitted_draws.
Qed.

Lemma draws_decide_choices_witness :
  1 ≤ 3 ∧
  ∃ t, (phases_1_2 3 demo_entropy).2 = inr t ∧
    alice_key t = (λ i, coin 0 1 (py_random demo_entropy i)) <$> seq 0 3 ∧
    alice_bases t = (λ i, coin "X" "Z" (py_random demo_entropy i))%string <$> seq 3 3 ∧
    bob_bases t = (λ i, coin "X" "Z" (py_random demo_entropy i))%string <$> seq (3 + 3) 3.
Proof.
  split; [lia|]. apply (draws_decide_choices 3 demo_entropy). lia.
Defined.

(** ** Steps 3 to 7: the circuits and Bob's record *)

Lemma lookup_concat_pairs {A} (a b : nat → A) s n j :
  (j < n)%nat →
  concat ((λ i, [a i; b i]) <$> seq s n) !! (2 * j)%nat = Some (a (s + j)%nat) ∧
  concat ((λ i, [a i; b i]) <$> seq s n) !! (2 * j + 1)%nat = Some (b (s + j)%nat).
Proof.
  revert s j. induction n as [|n IH]; intros s j Hj; [lia|].
  destruct j as [|j].
  - rewrite Nat.add_0_r. split; reflexivity.
  - replace (2 * S j)%nat with (S (S (2 * j))) by lia.
    replace (S (S (2 * j)) + 1)%nat with (S (S (2 * j + 1))) by lia.
    replace (s + S j)%nat with (S s + j)%nat by lia.
    apply (IH (S s) j). lia.
Qed.

Lemma length_concat_pairs {A} (a b : nat → A) (l : list nat) :
  length (concat ((λ i, [a i; b i]) <$> l)) = (2 * length l)%nat.
Proof.
  induction l as [|i l IH]; [done|].
  rewrite fmap_cons. cbn [concat]. rewrite length_app, IH. simpl. lia.
Qed.

Lemma concat_singletons {A} (g : nat → A) (l : list nat) :
  concat ((λ i, [g i]) <$> l) = g <$> l.
Proof.
  induction l as [|i l IH]; [done|].
  rewrite !fmap_cons. cbn [concat]. by rewrite IH.
Qed.

Lemma encode_gate_of_bit b :
  b ∈ [0; 1] → encode_gate_of b = if decide (b = 1) then cirq_X else cirq_I.
Proof. intros Hb. cases_of Hb; reflexivity. Qed.

Lemma basis_gate_of_basis s :
  s ∈ ["X"; "Z"]%string → basis_gate_of s = if decide (s = "X"%string) then cirq_H else cirq_I.
Proof. intros Hs. cases_of Hs; reflexivity. Qed.

(** X2. Alice's circuit has two operations for each qubit, in the order of
    the qubits: on qubit [i] first X when [alice_key[i]] is 1 (the identity
    when it is 0), then H when [alice_bases[i]] is 'X' (the identity when it
    is 'Z'). *)
Theorem alice_circuit_shape num_bits e :
  1 ≤ num_bits →
  ∃ t, (phases_1_2 num_bits e).2 = inr t ∧
    length (alice_cirquit t) = (2 * Z.to_nat num_bits)%nat ∧
    ∀ i, (i < Z.to_nat num_bits)%nat →
      ∃ b s,
        alice_key t !! i = Some b ∧ alice_bases t !! i = Some s ∧
        alice_cirquit t !! (2 * i)%nat
          = Some (GateOp (if decide (b = 1) then cirq_X else cirq_I) i) ∧
        alice_cirquit t !! (2 * i + 1)%nat
          = Some (GateOp (if decide (s = "X"%string) then cirq_H else cirq_I) i).
Proof.
  intros Hn. destruct (phases_1_2_total num_bits e) as [t Ht]; [lia|].
  exists t. split; [done|].
  destruct (phases_1_2_inr _ _ _ Ht)
    as (_ & _ & _ & _ & (Hk & Ha & _ & Hkey & Habases & _) & _ & _ & Hca & _).
  rewrite Hca. unfold range.
  change (λ i, qubit_ops (alice_ops (alice_key t) (alice_bases t) i) i)
    with (λ i, [GateOp (encode_gate_of (nth i (alice_key t) 0)) i;
                GateOp (basis_gate_of (nth i (alice_bases t) ""%string)) i]).
  split.
  - by rewrite length_concat_pairs, length_seq.
  - intros i Hi.
    destruct (lookup_lt_is_Some_2 (alice_key t) i) as [b Hb]; [lia|].
    destruct (lookup_lt_is_Some_2 (alice_bases t) i) as [s Hs]; [lia|].
    exists b, s. split; [done|]. split; [done|].
    destruct (lookup_concat_pairs
      (λ i, GateOp (encode_gate_of (nth i (alice_key t) 0)) i)
      (λ i, GateOp (basis_gate_of (nth i (alice_bases t) ""%string)) i)
      0 (Z.to_nat num_bits) i Hi) as [-> ->]. cbn [Nat.add].
    rewrite (nth_lookup_Some _ _ 0 _ Hb), (nth_lookup_Some _ _ ""%string _ Hs).
    rewrite encode_gate_of_bit by exact (Forall_lookup_1 _ _ _ _ Hkey Hb).
    rewrite basis_gate_of_basis by exact (Forall_lookup_1 _ _ _ _ Habases Hs).
    done.
Qed.

Lemma alice_circuit_shape_witness :
  1 ≤ 3 ∧
  ∃ t, (phases_1_2 3 demo_entropy).2 = inr t ∧
    length (alice_cirquit t) = (2 * Z.to_nat 3)%nat ∧
    ∀ i, (i < Z.to_nat 3)%nat →
      ∃ b s,
        alice_key t !! i = Some b ∧ alice_bases t !! i = Some s ∧
        alice_cirquit t !! (2 * i)%nat
          = Some (GateOp (if decide (b = 1) then cirq_X else cirq_I) i) ∧
        alice_cirquit t !! (2 * i + 1)%nat
          = Some (GateOp (if decide (s = "X"%string) then cirq_H else cirq_I) i).
Proof.
  split; [lia|]. apply (alice_circuit_shape 3 demo_entropy). lia.
Defined.

(** X3. Bob's circuit has one gate for each qubit, in the order of the
    qubits (H when [bob_bases[i]] is 'X', the identity when it is 'Z'),
    followed by a single measurement of all qubits in their order under the
    key 'bob_key'.  The simulated circuit is Alice's circuit followed by
    Bob's, so its only measurement is its last operation. *)
Theorem bob_circuit_shape num_bits e :
  1 ≤ num_bits →
  let n := Z.to_nat num_bits in
  ∃ t, (phases_1_2 num_bits e).2 = inr t ∧
    length (bob_circuit t) = S n ∧
    (∀ i s, bob_bases t !! i = Some s →
       bob_circuit t !! i
         = Some (GateOp (if decide (s = "X"%string) then cirq_H else cirq_I) i)) ∧
    bob_circuit t !! n = Some (MeasureOp (seq 0 n) "bob_key") ∧
    bb84_circuit t = alice_cirquit t ++ bob_circuit t ∧
    Forall is_gate (take (3 * n) (bb84_circuit t)) ∧
    bb84_circuit t !! (3 * n)%nat = Some (MeasureOp (seq 0 n) "bob_key").
Proof.
  intros Hn n. destruct (phases_1_2_total num_bits e) as [t Ht]; [lia|].
  exists t. split; [done|].
  destruct (phases_1_2_inr _ _ _ Ht)
    as (_ & _ & _ & _ & (_ & _ & Hb & _ & _ & Hbbases) & _ & _ & Hca & Hcb & Hbb).
  assert (length (alice_cirquit t) = (2 * n)%nat) as Hlen.
  { rewrite Hca. unfold range.
    change (λ i, qubit_ops (alice_ops (alice_key t) (alice_bases t) i) i)
      with (λ i, [GateOp (encode_gate_of (nth i (alice_key t) 0)) i;
                  GateOp (basis_gate_of (nth i (alice_bases t) ""%string)) i]).
    by rewrite length_concat_pairs, length_seq. }
  assert (bob_circuit t =
          ((λ i, GateOp (basis_gate_of (nth i (bob_bases t) ""%string)) i) <$> seq 0 n)
          ++ [MeasureOp (seq 0 n) "bob_key"]) as Hcb'.
  { rewrite Hcb. unfold range.
    change (λ i, qubit_ops (bob_ops (bob_bases t) i) i)
      with (λ i, [GateOp (basis_gate_of (nth i (bob_bases t) ""%string)) i]).
    by rewrite concat_singletons. }
  assert (length ((λ i, GateOp (basis_gate_of (nth i (bob_bases t) ""%string)) i)
                    <$> seq 0 n) = n) as Hlg by (by rewrite length_fmap, length_seq).
  split; [rewrite Hcb', length_app, Hlg; simpl; lia|].
  split.
  { intros i s Hs. pose proof (lookup_lt_Some _ _ _ Hs) as Hi. fold n in Hb.
    rewrite Hcb', lookup_app_l by lia.
    rewrite list_lookup_fmap, lookup_seq_lt by lia. simpl.
    rewrite (nth_lookup_Some _ _ ""%string _ Hs).
    by rewrite basis_gate_of_basis by exact (Forall_lookup_1 _ _ _ _ Hbbases Hs). }
  split.
  { rewrite Hcb', lookup_app_r by lia. by rewrite Hlg, Nat.sub_diag. }
  split; [done|]. rewrite Hbb, Hcb', app_assoc. split.
  - rewrite take_app_length'; [|rewrite length_app, Hlen, Hlg; lia].
    apply Forall_app. split.
    + rewrite Hca. apply is_gate_concat.
    + apply Forall_fmap, Forall_true. intros i. exact I.
  - rewrite lookup_app_r; rewrite length_app, Hlen, Hlg; [|lia].
    by replace (3 * n - (2 * n + n))%nat with 0%nat by lia.
Qed.

Lemma bob_circuit_shape_witness :
  1 ≤ 3 ∧
  let n := Z.to_nat 3 in
  ∃ t, (phases_1_2 3 demo_entropy).2 = inr t ∧
    length (bob_circuit t) = S n ∧
    (∀ i s, bob_bases t !! i = Some s →
       bob_circuit t !! i
         = Some (GateOp (if decide (s = "X"%string) then cirq_H else cirq_I) i)) ∧
    bob_circuit t !! n = Some (MeasureOp (seq 0 n) "bob_key") ∧
    bb84_circuit t = alice_cirquit t ++ bob_circuit t ∧
    Forall is_gate (take (3 * n) (bb84_circuit t)) ∧
    bb84_circuit t !! (3 * n)%nat = Some (MeasureOp (seq 0 n) "bob_key").
Proof.
  split; [lia|]. apply (bob_circuit_shape 3 demo_entropy). lia.
Defined.

(** X4. Step 7 leaves exactly one measurement record, under the key
    'bob_key'; Bob's key is that record: one bit for each qubit, each 0 or
    1.  All four lists of Phases 1 and 2 have length [num_bits]. *)
Theorem bob_key_shape num_bits e :
  1 ≤ num_bits →
  let n := Z.to_nat num_bits in
  ∃ t probs, (phases_1_2 num_bits e).2 = inr t ∧
    results t = [mkMeasurement "bob_key" probs (bob_key t)] ∧
    length (bob_key t) = n ∧ Forall (λ b, b = 0 ∨ b = 1) (bob_key t) ∧
    length (alice_key t) = n ∧ length (alice_bases t) = n ∧ length (bob_bases t) = n.
Proof.
  intros Hn n. destruct (phases_1_2_total num_bits e) as [t Ht]; [lia|].
  destruct (phases_1_2_inr _ _ _ Ht)
    as (_ & _ & _ & _ & Hprep & Hdraw & Hres & _).
  eexists t, _. split; [done|]. split; [exact Hres|].
  destruct Hprep as (Hk & Ha & Hb & _).
  split; [rewrite Hdraw; apply length_bob_reads|]. split; [|done].
  rewrite Hdraw. unfold bob_reads. apply Forall_fmap, Forall_true.
  intros i. apply bit_read_bit.
Qed.

Lemma bob_key_shape_witness :
  1 ≤ 3 ∧
  let n := Z.to_nat 3 in
  ∃ t probs, (phases_1_2 3 demo_entropy).2 = inr t ∧
    results t = [mkMeasurement "bob_key" probs (bob_key t)] ∧
    length (bob_key t) = n ∧ Forall (λ b, b = 0 ∨ b = 1) (bob_key t) ∧
    length (alice_key t) = n ∧ length (alice_bases t) = n ∧ length (bob_bases t) = n.
Proof.
  split; [lia|]. apply (bob_key_shape 3 demo_entropy). lia.
Defined.

(** ** When the loops of Steps 3 and 8 complete *)

Lemma for_each_completes {S} (l : list nat) (body : nat → S → Py S) (ok : nat → Prop) :
  (∀ i s, i ∈ l → (∃ s', body i s = inr s') ↔ ok i) →
  ∀ s, (∃ s', for_each l body s = inr s') ↔ ∀ i, i ∈ l → ok i.
Proof.
  induction l as [|i l IH]; intros Hbody s; simpl.
  - split; [by intros _ i ?%elem_of_nil|by eexists].
  - assert (∀ j s, j ∈ l → (∃ s', body j s = inr s') ↔ ok j) as Hbody'.
    { intros j s0 Hj. apply Hbody. by right. }
    split.
    + intros [s' (s1 & H1 & Hl)%bind_inr] j [Hj|Hj]%elem_of_cons.
      * subst j. apply (Hbody i s); [left|by eexists].
      * apply (proj1 (IH Hbody' s1)); [by eexists|done].
    + intros Hok.
      destruct (proj2 (Hbody i s (list_elem_of_here _ _))) as [s1 H1]; [apply Hok; left|].
      rewrite H1. simpl. apply (IH Hbody' s1). intros j Hj. apply Hok. by right.
Qed.

Lemma getitem_encode_inr b :
  (∃ g, getitem encode_gates b = inr g) ↔ b = 0 ∨ b = 1.
Proof.
  split.
  - intros [g Hg]. unfold getitem, encode_gates in Hg.
    destruct (decide (b = 0)) as [->|H0]; [by left|].
    destruct (decide (b = 1)) as [->|H1]; [by right|].
    rewrite !lookup_insert_ne, lookup_empty in Hg by done. discriminate.
  - intros [-> | ->]; by eexists.
Qed.

Lemma getitem_basis_inr s :
  (∃ g, getitem basis_gates s = inr g) ↔ s = "X"%string ∨ s = "Z"%string.
Proof.
  split.
  - intros [g Hg]. unfold getitem, basis_gates in Hg.
    destruct (decide (s = "Z"%string)) as [->|H0]; [by right|].
    destruct (decide (s = "X"%string)) as [->|H1]; [by left|].
    rewrite !lookup_insert_ne, lookup_empty in Hg by done. discriminate.
  - intros [-> | ->]; by eexists.
Qed.

(** X5. Step 3, run on any lists, completes exactly when each of the first
    [num_bits] positions holds a bit 0 or 1 in [alice_key], a basis 'X' or
    'Z' in [alice_bases] and a qubit in [qubits]; a short list or any other
    bit or basis makes it raise. *)
Theorem step3_completes num_bits (qubits : list nat) (alice_key : list Z)
    (alice_bases : list string) :
  (∃ c, step3 num_bits qubits alice_key alice_bases = inr c) ↔
  ∀ i, (i < Z.to_nat num_bits)%nat →
    (alice_key !! i = Some 0 ∨ alice_key !! i = Some 1) ∧
    (alice_bases !! i = Some "X"%string ∨ alice_bases !! i = Some "Z"%string) ∧
    is_Some (qubits !! i).
Proof.
  unfold step3.
  rewrite (for_each_completes _ _ (λ i,
    (alice_key !! i = Some 0 ∨ alice_key !! i = Some 1) ∧
    (alice_bases !! i = Some "X"%string ∨ alice_bases !! i = Some "Z"%string) ∧
    is_Some (qubits !! i))).
  - split; intros H i Hi; apply H; by apply elem_of_range.
  - intros i s _. split.
    + intros [s' H].
      apply bind_inr in H as (b & Hb%index_inr & H).
      apply bind_inr in H as (g & Hg & H).
      apply bind_inr in H as (bs & Hbs%index_inr & H).
      apply bind_inr in H as (g' & Hg' & H).
      apply bind_inr in H as (q & Hq%index_inr & _).
      rewrite Hb, Hbs, Hq.
      destruct (proj1 (getitem_encode_inr b) (ex_intro _ g Hg)) as [-> | ->];
      destruct (proj1 (getitem_basis_inr bs) (ex_intro _ g' Hg')) as [-> | ->];
      eauto 10.
    + intros (Hb & Hbs & [q Hq]).
      unfold index. rewrite Hq.
      destruct Hb as [-> | ->]; destruct Hbs as [-> | ->]; by eexists.
Qed.

Example step3_bad_bit :
  step3 2 [0; 1]%nat [0; 2] ["X"; "Z"]%string = inl KeyError.
Proof. reflexivity. Qed.

Example step3_short_bases :
  step3 2 [0; 1]%nat [0; 1] ["X"]%string = inl IndexError.
Proof. reflexivity. Qed.

(** X6. Step 8, run on any lists, completes exactly when both basis lists
    reach index [num_bits - 1] and the two keys hold an element at every
    index where the bases are equal; where the bases differ the keys are
    not read.  With [num_bits <= 0] it returns two empty keys. *)
Theorem step8_completes num_bits (alice_key : list Z) (alice_bases bob_bases : list string)
    (bob_key : list Z) :
  ((∃ keys, step8 num_bits alice_key alice_bases bob_bases bob_key = inr keys) ↔
   ∀ i, (i < Z.to_nat num_bits)%nat →
     is_Some (alice_bases !! i) ∧ is_Some (bob_bases !! i) ∧
     (alice_bases !! i = bob_bases !! i →
      is_Some (alice_key !! i) ∧ is_Some (bob_key !! i))) ∧
  (num_bits ≤ 0 →
   step8 num_bits alice_key alice_bases bob_bases bob_key = inr (mkKeys [] [])).
Proof.
  split.
  - unfold step8.
    rewrite (for_each_completes _ _ (λ i,
      is_Some (alice_bases !! i) ∧ is_Some (bob_bases !! i) ∧
      (alice_bases !! i = bob_bases !! i →
       is_Some (alice_key !! i) ∧ is_Some (bob_key !! i)))).
    + split; intros H i Hi; apply H; by apply elem_of_range.
    + intros i s _. split.
      * intros [s' H].
        apply bind_inr in H as (a & Ha%index_inr & H).
        apply bind_inr in H as (b & Hb%index_inr & H).
        rewrite Ha, Hb. split; [by eexists|]. split; [by eexists|].
        intros [= ->]. rewrite decide_True in H by done.
        apply bind_inr in H as (x & Hx%index_inr & H).
        apply bind_inr in H as (y & Hy%index_inr & _).
        rewrite Hx, Hy. split; by eexists.
      * intros ([a Ha] & [b Hb] & Hkeys).
        unfold index at 1 2. rewrite Ha, Hb. simpl.
        destruct (decide (a = b)) as [->|Hne]; [|by eexists].
        destruct Hkeys as [[x Hx] [y Hy]]; [congruence|].
        unfold index. rewrite Hx, Hy. by eexists.
  - intros Hn. unfold step8, range. by replace (Z.to_nat num_bits) with 0%nat by lia.
Qed.

Lemma step8_completes_witness :
  0 ≤ 0 ∧ step8 0 [1] ["X"]%string ["X"]%string [1] = inr (mkKeys [] []).
Proof.
  split; [lia|]. apply (proj2 (step8_completes 0 [1] ["X"]%string ["X"]%string [1])). lia.
Defined.

Example step8_unread_key :
  step8 2 [7] ["X"; "Z"]%string ["X"; "X"]%string [9] = inr (mkKeys [7] [9]).
Proof. reflexivity. Qed.

(** ** Step 9 on arbitrary keys *)

(** X7. Step 9 raises only when one of the two keys is empty: then it
    raises IndexError, before printing anything.  On two non-empty keys it
    compares the first elements and nothing else: when they are equal it
    ends in the first branch and both keys lose their first element,
    whether or not the rest of the keys agree. *)
Theorem step9_cases (keys : Keys) :
  (∀ err, (step9 keys).2 = inl err ↔
          err = IndexError ∧ (final_alice_key keys = [] ∨ final_bob_key keys = [])) ∧
  ((step9 keys).2 = inl IndexError → (step9 keys).1 = []) ∧
  (∀ keys', (step9 keys).2 = inr (Secure, keys') ↔
     head (final_alice_key keys) = head (final_bob_key keys) ∧
     final_alice_key keys ≠ [] ∧
     keys' = mkKeys (drop 1 (final_alice_key keys)) (drop 1 (final_bob_key keys))).
Proof.
  assert (∀ fa fb, fa = [] ∨ fb = [] → step9 (mkKeys fa fb) = ([], inl IndexError)) as Hempty.
  { intros [|a fa] [|b fb] [?|?]; done. }
  destruct keys as [fa fb].
  destruct (decide (fa = [] ∨ fb = [])) as [He|Hne].
  - rewrite (Hempty _ _ He). simpl. split; [|split].
    + intros err. split; [intros [= <-]; auto|intros [-> _]; done].
    + done.
    + intros keys'. split; [discriminate|]. intros (Hh & Hn & _).
      destruct He as [->| ->]; [done|]. by destruct fa.
  - destruct fa as [|a fa]; [by destruct Hne; left|].
    destruct fb as [|b fb]; [by destruct Hne; right|].
    destruct (decide (a = b)) as [->|Hab].
    + rewrite step9_equal by done. simpl. split; [|split].
      * intros err. split; [discriminate|]. by intros [_ [?|?]].
      * discriminate.
      * intros keys'. split; [by intros [= <-]|by intros (_ & _ & ->)].
    + rewrite step9_differ by done. simpl. split; [|split].
      * intros err. split; [discriminate|]. by intros [_ [?|?]].
      * discriminate.
      * intros keys'. split; [discriminate|]. intros ([= ?] & _). done.
Qed.

Example step9_looks_at_first_bit_only :
  (step9 (mkKeys [1; 0; 0] [1; 1; 1])).2 = inr (Secure, mkKeys [0; 0] [1; 1]).
Proof. reflexivity. Qed.

(** ** The run as a whole *)

(** X8. Without noise the two sifted keys Step 8 builds are the same list,
    first bit included, in every run. *)
Theorem sifted_keys_equal num_bits e :
  1 ≤ num_bits →
  ∃ s, (phase_3_step8 num_bits e).2 = inr s ∧
       final_bob_key (sifted s) = final_alice_key (sifted s).
Proof.
  intros Hn. destruct (phases_1_2_total num_bits e) as [t Ht]; [lia|].
  destruct (run_outcome _ _ _ Ht) as (keys & Hkeys & Hagree & _).
  exists (mkSifting t keys). split; [by apply phase_3_step8_from|done].
Qed.

Lemma sifted_keys_equal_witness :
  1 ≤ 3 ∧
  ∃ s, (phase_3_step8 3 demo_entropy).2 = inr s ∧
       final_bob_key (sifted s) = final_alice_key (sifted s).
Proof.
  split; [lia|]. apply (sifted_keys_equal 3 demo_entropy). lia.
Defined.

Lemma run_cases num_bits e :
  (num_bits ≤ 0 ∧ (run num_bits e).2 = inl ValueError) ∨
  (1 ≤ num_bits ∧
   ∃ t keys,
     (phases_1_2 num_bits e).2 = inr t ∧
     step8 num_bits (alice_key t) (alice_bases t) (bob_bases t) (bob_key t) = inr keys ∧
     length (final_alice_key keys) =
       length (matching (alice_bases t) (bob_bases t) (Z.to_nat num_bits)) ∧
     (run num_bits e).2 =
       match final_alice_key keys with
       | [] => inl IndexError
       | _ :: fa => inr (mkRun (mkSifting t keys) Secure (mkKeys fa fa))
       end).
Proof.
  destruct (decide (num_bits ≤ 0)) as [Hn|Hn].
  - left. split; [done|]. by rewrite run_nonpositive.
  - right. split; [lia|].
    destruct (phases_1_2_total num_bits e) as [t Ht]; [lia|].
    destruct (run_outcome _ _ _ Ht) as (keys & Hkeys & _ & Hrun).
    exists t, keys. repeat split; try done.
    destruct (step8_inv _ _ _ _ _ _ Hkeys) as [Hfa _]. by apply picks_length in Hfa.
Qed.

(** X9. The run raises in two cases only: ValueError exactly when
    [num_bits <= 0], and IndexError exactly when [num_bits >= 1] and the
    bases drawn differ at every index.  It never raises KeyError. *)
Theorem run_raises num_bits e err :
  (run num_bits e).2 = inl err ↔
  (err = ValueError ∧ num_bits ≤ 0) ∨
  (err = IndexError ∧ 1 ≤ num_bits ∧
   ∃ t, (phases_1_2 num_bits e).2 = inr t ∧
        matching (alice_bases t) (bob_bases t) (Z.to_nat num_bits) = []).
Proof.
  destruct (run_cases num_bits e) as [[Hn Hrun]|(Hn & t & keys & Ht & _ & Hlen & Hrun)];
    rewrite Hrun.
  - split.
    + intros [= <-]. by left.
    + intros [[-> _]|(_ & ? & _)]; [done|lia].
  - destruct (final_alice_key keys) as [|a fa].
    + split.
      * intros [= <-]. right. split; [done|]. split; [done|].
        exists t. split; [done|]. by destruct (matching _ _ _).
      * intros [[_ ?]|[-> _]]; [lia|done].
    + split; [discriminate|].
      intros [[_ ?]|(_ & _ & t' & Ht' & Hm)]; [lia|].
      rewrite Ht in Ht'. injection Ht' as <-. rewrite Hm in Hlen. discriminate.
Qed.

(** X10. A run that completes has [num_bits >= 1] and at least one index
    with equal bases, and it ends in the first branch of Step 9: without
    noise the warning branch is never taken. *)
Theorem completed_run_is_secure num_bits e r :
  (run num_bits e).2 = inr r →
  verdict r = Secure ∧ 1 ≤ num_bits ∧
  matching (alice_bases (sent (before r))) (bob_bases (sent (before r)))
           (Z.to_nat num_bits) ≠ [].
Proof.
  destruct (run_cases num_bits e) as [[Hn Hrun]|(Hn & t & keys & Ht & _ & Hlen & Hrun)];
    rewrite Hrun; [discriminate|].
  destruct (final_alice_key keys) as [|a fa]; [discriminate|].
  intros [= <-]. simpl. repeat split; [done|]. intros Hm. rewrite Hm in Hlen. discriminate.
Qed.

Lemma completed_run_is_secure_witness :
  (run 3 demo_entropy).2 = inr demo_run ∧
  verdict demo_run = Secure ∧ 1 ≤ 3 ∧
  matching (alice_bases (sent (before demo_run))) (bob_bases (sent (before demo_run)))
           (Z.to_nat 3) ≠ [].
Proof.
  split; [vm_compute; reflexivity|].
  apply (completed_run_is_secure 3 demo_entropy demo_run). vm_compute; reflexivity.
Defined.

(** X11. In a run that completes, the bit at the first index with equal
    bases is the one given up in the check; each final key lists its
    party's bits at the remaining indices with equal bases, in index
    order. *)
Theorem final_key_contents num_bits e r :
  (run num_bits e).2 = inr r →
  let t := sent (before r) in
  let idxs := matching (alice_bases t) (bob_bases t) (Z.to_nat num_bits) in
  picks (alice_key t) (drop 1 idxs) (final_alice_key (final r)) ∧
  picks (bob_key t) (drop 1 idxs) (final_bob_key (final r)) ∧
  length (final_alice_key (final r)) = (length idxs - 1)%nat.
Proof.
  intros Hr t idxs.
  destruct (run_inr _ _ _ Hr) as [[Ht Hkeys]%phase_3_step8_inr _].
  destruct (run_outcome _ _ _ Ht) as (keys & Hkeys' & Hagree & Hrun).
  rewrite Hkeys in Hkeys'. injection Hkeys' as <-.
  destruct (step8_inv _ _ _ _ _ _ Hkeys) as [Hfa Hfb].
  fold t idxs in Hfa, Hfb. rewrite Hr in Hrun.
  assert (final_alice_key (final r) = drop 1 (final_alice_key (sifted (before r))) ∧
          final_bob_key (final r) = drop 1 (final_bob_key (sifted (before r)))) as [-> ->].
  { rewrite Hagree. destruct (final_alice_key (sifted (before r))) as [|a fa];
      [discriminate|]. injection Hrun as ->. done. }
  split; [by apply Forall2_drop|]. split; [by apply Forall2_drop|].
  by rewrite length_drop, (picks_length _ _ _ Hfa).
Qed.

Lemma final_key_contents_witness :
  (run 3 demo_entropy).2 = inr demo_run ∧
  let t := sent (before demo_run) in
  let idxs := matching (alice_bases t) (bob_bases t) (Z.to_nat 3) in
  picks (alice_key t) (drop 1 idxs) (final_alice_key (final demo_run)) ∧
  picks (bob_key t) (drop 1 idxs) (final_bob_key (final demo_run)) ∧
  length (final_alice_key (final demo_run)) = (length idxs - 1)%nat.
Proof.
  split; [vm_compute; reflexivity|].
  apply (final_key_contents 3 demo_entropy demo_run). vm_compute; reflexivity.
Defined.

(** ** Bob's record as a function of the draws *)



(** X13. The run stops on the IndexError of Step 9 exactly when
    [num_bits >= 1] and, at every index [i], the call of [random()] behind
    [alice_bases[i]] and the one behind [bob_bases[i]] choose different
    bases. *)
Theorem run_fails_on_draws num_bits e :
  let n := Z.to_nat num_bits in
  (run num_bits e).2 = inl IndexError ↔
  1 ≤ num_bits ∧
  ∀ i, (i < n)%nat →
    coin "X"%string "Z"%string (py_random e (n + i)%nat)
    ≠ coin "X"%string "Z"%string (py_random e (n + n + i)%nat).
Proof.
  intros n.
  destruct (run_cases num_bits e) as [[Hn Hrun]|(Hn & t & keys & Ht & _ & Hlen & Hrun)];
    rewrite Hrun.
  - split; [discriminate|intros [? _]; lia].
  - destruct (transmitted_draws _ _ _ Ht) as (_ & Ha & Hb). fold n in Ha, Hb, Hlen.
    assert (∀ i, (i < n)%nat →
              alice_bases t !! i = Some (coin "X"%string "Z"%string (py_random e (n + i)%nat)) ∧
              bob_bases t !! i
                = Some (coin "X"%string "Z"%string (py_random e (n + n + i)%nat))) as Hlook.
    { intros i Hi. rewrite Ha, Hb, !list_lookup_fmap, !lookup_seq_lt by done. done. }
    assert (matching (alice_bases t) (bob_bases t) n = [] ↔
            ∀ i, (i < n)%nat →
              coin "X"%string "Z"%string (py_random e (n + i)%nat)
              ≠ coin "X"%string "Z"%string (py_random e (n + n + i)%nat)) as Hmatch.
    { split.
      - intros Hm i Hi E. destruct (Hlook i Hi) as [Hai Hbi].
        assert (i ∈ matching (alice_bases t) (bob_bases t) n) as Hin
          by (apply elem_of_matching; split; [done|congruence]).
        rewrite Hm in Hin. by apply elem_of_nil in Hin.
      - intros Hne. apply elem_of_nil_inv. intros i [Hi E]%elem_of_matching.
        destruct (Hlook i Hi) as [Hai Hbi]. apply (Hne i Hi). congruence. }
    rewrite <- Hmatch. destruct (final_alice_key keys) as [|a fa].
    + split; [|done]. intros _. split; [done|]. by destruct (matching _ _ _).
    + split; [discriminate|]. intros [_ Hm]. rewrite Hm in Hlen. discriminate.
Qed.
